(** * Reverse line reading: a shallow embedding of [fileread/last_lines.py]

    The generator [last_lines(filename, buf_size, encoding)] walks a file from
    its end to its start in chunks of [buf_size] bytes, splits every chunk on
    the byte [\n], carries the first fragment of a chunk over to the next
    (more start-ward) chunk and yields the decoded lines last line first.

    The development models
    - the Python primitives the function uses ([bytes.split], [endswith],
      slicing, [str.lower], [str.replace]),
    - the generator as an explicit state machine: one state per suspension
      point, one transition ([next]) per pull, every transition reporting
      the file operations it performed,
    - the codec registry of the runtime as a parameter of the development,
      with concrete instances (UTF-8, ASCII, Latin-1, and the EBCDIC codec
      [cp037]) for the examples. *)

From Stdlib Require Import List ZArith NArith Lia Bool String Ascii.
From Stdlib Require Import Strings.Byte.
From Stdlib Require Import Sorting.Sorted.
Import ListNotations.
Open Scope Z_scope.

(** ** Python primitives *)

Module Py.

Definition bytes := list byte.

(** A [str] is a sequence of code points. *)
Definition text := list N.

(** The delimiter byte [b'\n'] and the character ['\n']. *)
Definition NL : byte := x0a.
Definition nl : N := 10%N.

Definition is_nl (b : byte) : bool := Byte.eqb b NL.

(** [b.split(b'\n')]: never empty, the delimiter is discarded. *)
Fixpoint split_nl (b : bytes) : list bytes :=
  match b with
  | [] => [[]]
  | c :: r =>
      if is_nl c then [] :: split_nl r
      else match split_nl r with
           | h :: t => (c :: h) :: t
           | [] => [[c]]
           end
  end.

(** [b.endswith(b'\n')] *)
Fixpoint endswith_nl (b : bytes) : bool :=
  match b with
  | [] => false
  | [c] => is_nl c
  | _ :: r => endswith_nl r
  end.

(** [b[:-1]] *)
Definition drop_last (b : bytes) : bytes := removelast b.

(** [lines[-1] += segment] on a list of byte strings. *)
Fixpoint add_to_last (lines : list bytes) (segment : bytes) : list bytes :=
  match lines with
  | [] => []
  | [l] => [l ++ segment]
  | l :: r => l :: add_to_last r segment
  end.

(** [fh.seek(pos); fh.read(n)] on a file holding [content]. *)
Definition read_at (content : bytes) (pos n : Z) : bytes :=
  firstn (Z.to_nat n) (skipn (Z.to_nat pos) content).

(** [s.lower()] on the ASCII letters. *)
Definition lower_char (c : ascii) : ascii :=
  let n := N_of_ascii c in
  if ((65 <=? n) && (n <=? 90))%N then ascii_of_N (n + 32) else c.

Fixpoint lower (s : string) : string :=
  match s with
  | EmptyString => EmptyString
  | String c r => String (lower_char c) (lower r)
  end.

(** [s.replace('-', '')] *)
Fixpoint remove_hyphens (s : string) : string :=
  match s with
  | EmptyString => EmptyString
  | String c r =>
      if Ascii.eqb c "-"%char then remove_hyphens r
      else String c (remove_hyphens r)
  end.

(** [s in tuple] *)
Definition str_in (s : string) (l : list string) : bool :=
  existsb (String.eqb s) l.

End Py.

Import Py.

(** ** Codecs *)

(** Outcome of [line.decode(encoding)]. *)
Inductive decode_result :=
| Decoded (t : text)
| UnicodeDecodeError
| LookupError.

Module Codec.

Definition cont (b : N) : bool := ((128 <=? b) && (b <=? 191))%N.
Definition between (lo b hi : N) : bool := ((lo <=? b) && (b <=? hi))%N.

(** Strict UTF-8: shortest form only, no surrogates, at most U+10FFFF. *)
Fixpoint utf8 (b : list N) : option text :=
  match b with
  | [] => Some []
  | b0 :: r0 =>
      if (b0 <? 128)%N then option_map (cons b0) (utf8 r0)
      else if between 194 b0 223 then
        match r0 with
        | b1 :: r1 =>
            if cont b1
            then option_map (cons ((b0 - 192) * 64 + (b1 - 128))%N) (utf8 r1)
            else None
        | _ => None
        end
      else if between 224 b0 239 then
        match r0 with
        | b1 :: b2 :: r2 =>
            if between (if (b0 =? 224)%N then 160 else 128) b1
                       (if (b0 =? 237)%N then 159 else 191)
               && cont b2
            then option_map
                   (cons ((b0 - 224) * 4096 + (b1 - 128) * 64 + (b2 - 128))%N)
                   (utf8 r2)
            else None
        | _ => None
        end
      else if between 240 b0 244 then
        match r0 with
        | b1 :: b2 :: b3 :: r3 =>
            if between (if (b0 =? 240)%N then 144 else 128) b1
                       (if (b0 =? 244)%N then 143 else 191)
               && cont b2 && cont b3
            then option_map
                   (cons ((b0 - 240) * 262144 + (b1 - 128) * 4096
                          + (b2 - 128) * 64 + (b3 - 128))%N)
                   (utf8 r3)
            else None
        | _ => None
        end
      else None
  end.

Definition ascii (b : list N) : option text :=
  if forallb (fun c => (c <? 128)%N) b then Some b else None.

Definition latin1 (b : list N) : option text := Some b.

Inductive codec := UTF8 | ASCII | LATIN1.

(** The names under which the three codecs are registered, after the
    registry's normalisation (lower case, hyphens read as underscores). *)
Fixpoint hyphens_to_underscores (s : string) : string :=
  match s with
  | EmptyString => EmptyString
  | String c r =>
      String (if Ascii.eqb c "-"%char then "_"%char else c)
             (hyphens_to_underscores r)
  end.

Definition lookup (encoding : string) : option codec :=
  let name := hyphens_to_underscores (lower encoding) in
  if str_in name ["utf_8"; "utf8"; "utf"; "u8"; "cp65001"]%string
  then Some UTF8
  else if str_in name ["ascii"; "us_ascii"; "646"]%string
  then Some ASCII
  else if str_in name ["latin_1"; "latin1"; "latin"; "l1";
                       "iso_8859_1"; "iso8859_1"; "8859"; "cp819"]%string
  then Some LATIN1
  else None.

Definition run (c : codec) (b : bytes) : option text :=
  let ns := map Byte.to_N b in
  match c with
  | UTF8 => utf8 ns
  | ASCII => ascii ns
  | LATIN1 => latin1 ns
  end.

(** [b.decode(encoding)] for the codecs above; any other name is unknown
    to this registry. *)
Definition py_decode (encoding : string) (b : bytes) : decode_result :=
  match lookup encoding with
  | None => LookupError
  | Some c =>
      match run c b with
      | Some t => Decoded t
      | None => UnicodeDecodeError
      end
  end.

End Codec.

(** ** A codec that is not ASCII-compatible *)

Module Ebcdic.

(** The decoding table of the runtime's [cp037] codec (EBCDIC, US and
    Canada): entry [i] is the code point byte [i] stands for.  Byte 0x25
    stands for the newline character, byte 0x0a for U+008E. *)
Definition decoding_table : list N :=
  [
   0; 1; 2; 3; 156; 9; 134; 127; 151; 141; 142; 11;
   12; 13; 14; 15; 16; 17; 18; 19; 157; 133; 8; 135;
   24; 25; 146; 143; 28; 29; 30; 31; 128; 129; 130; 131;
   132; 10; 23; 27; 136; 137; 138; 139; 140; 5; 6; 7;
   144; 145; 22; 147; 148; 149; 150; 4; 152; 153; 154; 155;
   20; 21; 158; 26; 32; 160; 226; 228; 224; 225; 227; 229;
   231; 241; 162; 46; 60; 40; 43; 124; 38; 233; 234; 235;
   232; 237; 238; 239; 236; 223; 33; 36; 42; 41; 59; 172;
   45; 47; 194; 196; 192; 193; 195; 197; 199; 209; 166; 44;
   37; 95; 62; 63; 248; 201; 202; 203; 200; 205; 206; 207;
   204; 96; 58; 35; 64; 39; 61; 34; 216; 97; 98; 99;
   100; 101; 102; 103; 104; 105; 171; 187; 240; 253; 254; 177;
   176; 106; 107; 108; 109; 110; 111; 112; 113; 114; 170; 186;
   230; 184; 198; 164; 181; 126; 115; 116; 117; 118; 119; 120;
   121; 122; 161; 191; 208; 221; 222; 174; 94; 163; 165; 183;
   169; 167; 182; 188; 189; 190; 91; 93; 175; 168; 180; 215;
   123; 65; 66; 67; 68; 69; 70; 71; 72; 73; 173; 244;
   246; 242; 243; 245; 125; 74; 75; 76; 77; 78; 79; 80;
   81; 82; 185; 251; 252; 249; 250; 255; 92; 247; 83; 84;
   85; 86; 87; 88; 89; 90; 178; 212; 214; 210; 211; 213;
   48; 49; 50; 51; 52; 53; 54; 55; 56; 57; 179; 219;
   220; 217; 218; 159]%N.

(** [codecs.charmap_decode] with that table: every byte has an entry. *)
Definition cp037 (b : bytes) : text :=
  map (fun c => nth (N.to_nat (Byte.to_N c)) decoding_table 0%N) b.

(** [b.decode(encoding)] for a registry that knows [cp037] under its
    names beside the codecs of [Codec]. *)
Definition py_decode (encoding : string) (b : bytes) : decode_result :=
  if str_in (Codec.hyphens_to_underscores (lower encoding))
            ["cp037"; "037"; "csibm037"; "ebcdic_cp_ca"; "ebcdic_cp_nl";
             "ebcdic_cp_us"; "ebcdic_cp_wt"; "ibm037"; "ibm039"]%string
  then Decoded (cp037 b)
  else Codec.py_decode encoding b.

End Ebcdic.

(** ** Files, exceptions, events *)

(** What a path denotes when [open(filename, 'rb')] is called.  The content
    of a regular file does not change while a generator reads it. *)
Inductive file_status :=
| Missing
| Unreadable
| Regular (content : bytes).

Inductive exn :=
| ValueError
| FileNotFoundError
| OSError
| BufferTooSmallException
| UnicodeDecodeErr
| LookupErr.

(** File operations, in the order they are performed.  [EvRead pos n] is
    [fh.seek(pos)] followed by [fh.read(n)]: the bytes [[pos, pos + n)). *)
Inductive event :=
| EvOpen
| EvSeekEnd
| EvRead (pos n : Z)
| EvClose.

(** What one pull ([next(gen)]) gives the caller.  [Diverge] stands for a
    pull whose [while] loop does not come back; [next_returns] shows that
    no generator reaches it. *)
Inductive outcome :=
| Yield (item : text)
| StopIteration
| Raise (e : exn)
| Diverge.

(** ** The generator *)

(** The local variables of the generator's frame that live across
    iterations of the [while] loop. *)
Record frame := mkFrame {
  file_size : Z;
  offset : Z;
  remaining_size : Z;
  segment : option bytes
}.

(** The suspension points of the generator: not yet started, suspended at
    the [yield] inside the [for] loop (with the lines the loop has not yet
    visited), suspended at the final [yield], or finished. *)
Inductive gen_state :=
| GenCreated
| GenSuspendedFor (content : bytes) (fr : frame) (pending : list bytes)
| GenSuspendedFinal (content : bytes) (fr : frame)
| GenClosed.

Record generator := mkGen {
  filename : string;
  buf_size : Z;
  encoding : string;
  state : gen_state
}.

(** Line 37. *)
Definition min_buf_size (encoding : string) : Z :=
  if str_in (remove_hyphens (lower encoding)) ["utf8"; "utf"]%string
  then 4 else 1.

(** Calling a generator function runs none of its body: the call returns
    the generator object. *)
Definition last_lines (filename : string) (buf_size : Z) (encoding : string)
  : exn + generator :=
  inr (mkGen filename buf_size encoding GenCreated).

(** Lines 57-59: the newline that ends the file is removed from the chunk
    that touches the end of the file. *)
Definition strip_eof_newline (fr : frame) (buffer : bytes) : bytes :=
  if (remaining_size fr =? file_size fr) && endswith_nl buffer
  then drop_last buffer else buffer.

(** Lines 52-69: one iteration of the [while] loop up to the [for] loop.
    Returns the updated frame, [reversed(lines[1:])] and the read. *)
Definition loop_body (content : bytes) (buf_size : Z) (fr : frame)
  : frame * list bytes * event :=
  let offset' := Z.min (file_size fr) (offset fr + buf_size) in
  let pos := Z.max 0 (file_size fr - offset') in
  let chunk_size := Z.min (remaining_size fr) buf_size in
  let buffer := read_at content pos chunk_size in
  let buffer := strip_eof_newline fr buffer in
  let remaining_size' := remaining_size fr - chunk_size in
  let lines := split_nl buffer in
  let lines :=
    match segment fr with
    | Some s => add_to_last lines s
    | None => lines
    end in
  (mkFrame (file_size fr) offset' remaining_size' (Some (hd [] lines)),
   rev (tl lines),
   EvRead pos chunk_size).

(** ** Example files *)

Module Ex.

(** A file system in which every path is the same regular file. *)
Definition one_file (content : bytes) : string -> file_status :=
  fun _ => Regular content.

(** [b"L1\nL2\nL3\n"] *)
Definition three_lines : bytes :=
  [x4c; x31; x0a; x4c; x32; x0a; x4c; x33; x0a].

(** [b"L1\r\nL2\r\n"] *)
Definition crlf_lines : bytes :=
  [x4c; x31; x0d; x0a; x4c; x32; x0d; x0a].

(** [b"\x80\x81\x82\xff"], the binary file of the test suite. *)
Definition binary : bytes := [x80; x81; x82; xff].

(** [b"A\n\x80"]: the second line is not UTF-8. *)
Definition bad_last_line : bytes := [x41; x0a; x80].

(** [b"AAAA\n\x80\nB"]: the second line is not UTF-8. *)
Definition bad_middle_line : bytes :=
  [x41; x41; x41; x41; x0a; x80; x0a; x42].

(** [b"AAAAAAAA"]: one line, longer than a capacity of 4. *)
Definition long_line : bytes := [x41; x41; x41; x41; x41; x41; x41; x41].

(** The generator object for [last_lines(name, capacity, codec)]. *)
Definition gen (name : string) (capacity : Z) (codec : string) : generator :=
  mkGen name capacity codec GenCreated.

End Ex.

(** ** More example files *)

Module More.

(** [b"L1\nL2\nL3"]: three lines, no newline at the end. *)
Definition open_ended : bytes := [x4c; x31; x0a; x4c; x32; x0a; x4c; x33].

(** A file system with the file [plain] under the name ["plain.log"] and
    the file [other] under every other name. *)
Definition two_files (plain other : bytes) : string -> file_status :=
  fun name => if String.eqb name "plain.log" then Regular plain
              else Regular other.

(** [b"\xc1\x25"]: the letter A and the newline character in EBCDIC; no
    byte is the delimiter. *)
Definition ebcdic_line : bytes := [xc1; x25].

End More.

(** ** Reconciling two lists of transactions

    [reconcile/transaction.py] and [reconcile/transaction_reconciler.py]:
    a transaction of the first list is matched with a transaction of the
    second list that is not yet matched, agrees with it on department,
    amount and name, and is dated the same day or, failing that, a day
    apart.  Amounts are Python floats: the type and its [==] are
    parameters.  Dates are day numbers.  [find_match] returns one of the
    objects of [candidates]: here, its position in the list. *)

Module Reconcile.

Section Transactions.

Variable float : Type.
(** [a == b] on floats. *)
Variable float_eq : float -> float -> bool.

Record Transaction := mkTransaction {
  date : Z;
  department : string;
  amount : float;
  name : string;
  status : option string;
  original_row : list string
}.

(** [Transaction.matches] *)
Definition matches (self other : Transaction) : bool :=
  String.eqb (department self) (department other)
  && float_eq (amount self) (amount other)
  && String.eqb (name self) (name other).

(** [Transaction.is_date_close] *)
Definition is_date_close (self other : Transaction) : bool :=
  Z.abs (date self - date other) <=? 1.

(** [s is None] *)
Definition is_none (s : option string) : bool :=
  match s with
  | None => true
  | Some _ => false
  end.

(** The objects of a list, each with its position. *)
Definition positions (l : list Transaction) : list (nat * Transaction) :=
  combine (seq 0 (List.length l)) l.

(** [min(best :: rest, key=lambda c: c.date)]: the first object with the
    least date. *)
Fixpoint min_by_date (best : nat * Transaction)
         (rest : list (nat * Transaction)) : nat * Transaction :=
  match rest with
  | [] => best
  | c :: rest' =>
      if date (snd c) <? date (snd best) then min_by_date c rest'
      else min_by_date best rest'
  end.

(** The two filters of [find_match]. *)
Definition is_exact_match (txn c : Transaction) : bool :=
  is_none (status c) && (date txn =? date c) && matches txn c.

Definition is_close_match (txn c : Transaction) : bool :=
  is_none (status c) && is_date_close txn c && matches txn c.

(** [TransactionReconciler.find_match] *)
Definition find_match (txn : Transaction) (candidates : list Transaction)
  : option nat :=
  let exact_matches :=
    filter (fun c => is_exact_match txn (snd c)) (positions candidates) in
  match exact_matches with
  | c :: rest => Some (fst (min_by_date c rest))
  | [] =>
      let close_matches :=
        filter (fun c => is_close_match txn (snd c)) (positions candidates) in
      match close_matches with
      | c :: rest => Some (fst (min_by_date c rest))
      | [] => None
      end
  end.

(** [txn.status = s] *)
Definition set_status (s : string) (txn : Transaction) : Transaction :=
  mkTransaction (date txn) (department txn) (amount txn) (name txn)
                (Some s) (original_row txn).

(** [l[i].status = s] *)
Fixpoint set_status_at (i : nat) (s : string) (l : list Transaction)
  : list Transaction :=
  match l, i with
  | [], _ => []
  | txn :: l', O => set_status s txn :: l'
  | txn :: l', S i' => txn :: set_status_at i' s l'
  end.

(** The first loop of [reconcile]: the transactions of the first list in
    turn, each matched against the second list as the earlier matches
    have left it. *)
Fixpoint match_all (transactions1 transactions2 : list Transaction)
  : list Transaction * list Transaction :=
  match transactions1 with
  | [] => ([], transactions2)
  | txn1 :: rest =>
      match find_match txn1 transactions2 with
      | Some i =>
          let '(rest', transactions2') :=
            match_all rest (set_status_at i "FOUND" transactions2) in
          (set_status "FOUND" txn1 :: rest', transactions2')
      | None =>
          let '(rest', transactions2') := match_all rest transactions2 in
          (txn1 :: rest', transactions2')
      end
  end.

(** The second and third loops: what is not matched is missing. *)
Definition tag_missing (txn : Transaction) : Transaction :=
  match status txn with
  | None => set_status "MISSING" txn
  | Some _ => txn
  end.

(** The two lists as [reconcile] leaves them before it formats them. *)
Definition reconciled (transactions1 transactions2 : list Transaction)
  : list Transaction * list Transaction :=
  let '(t1, t2) := match_all transactions1 transactions2 in
  (map tag_missing t1, map tag_missing t2).

(** [",".join(txn.original_row + [txn.status])]; joining [None] raises
    [TypeError]. *)
Definition row_out (txn : Transaction) : option string :=
  match status txn with
  | Some s => Some (String.concat "," (original_row txn ++ [s]))
  | None => None
  end.

Fixpoint rows_out (l : list Transaction) : option (list string) :=
  match l with
  | [] => Some []
  | txn :: l' =>
      match row_out txn, rows_out l' with
      | Some r, Some rs => Some (r :: rs)
      | _, _ => None
      end
  end.

(** [TransactionReconciler.reconcile] on a reconciler that holds the two
    lists; [None] stands for an exception. *)
Definition reconcile (transactions1 transactions2 : list Transaction)
  : option (list string * list string) :=
  let '(t1, t2) := reconciled transactions1 transactions2 in
  match rows_out t1, rows_out t2 with
  | Some out1, Some out2 => Some (out1, out2)
  | _, _ => None
  end.

(** A transaction as [parse_row] makes it: not yet matched. *)
Definition fresh (txn : Transaction) : Prop := status txn = None.

(** The number of transactions marked as found. *)
Definition found (l : list Transaction) : nat :=
  List.length (filter (fun txn =>
                         match status txn with
                         | Some s => String.eqb s "FOUND"
                         | None => false
                         end) l).

(** [c] is a candidate that [txn] can be matched with. *)
Definition eligible (txn c : Transaction) : Prop :=
  is_close_match txn c = true.

(** The status a transaction ends with: its own, or missing. *)
Definition final_status (txn : Transaction) : string :=
  match status txn with
  | Some s => s
  | None => "MISSING"
  end.

(** [row] is the row of [txn] in the result: its original fields and a
    status, which for a transaction that was not yet matched is found or
    missing. *)
Definition row_of (txn : Transaction) (row : string) : Prop :=
  exists s,
    row = String.concat "," (original_row txn ++ [s])
    /\ (fresh txn -> s = "FOUND"%string \/ s = "MISSING"%string).

(** [b] is [a], possibly marked as found. *)
Definition marked (a b : Transaction) : Prop :=
  date b = date a /\ department b = department a
  /\ amount b = amount a /\ name b = name a
  /\ original_row b = original_row a
  /\ (status b = status a \/ status b = Some "FOUND"%string).

(** [datetime.strptime(s, "%Y-%m-%d").date()] as a day number and
    [float(s)]; [None] when they raise [ValueError]. *)
Variable strptime : string -> option Z.
Variable to_float : string -> option float.

(** [TransactionReconciler.parse_row]; [None] stands for the exception
    raised when the row has fewer than four fields or when the date or
    the amount cannot be parsed. *)
Definition parse_row (row : list string) : option Transaction :=
  match row with
  | d :: dept :: amt :: what :: _ =>
      match strptime d, to_float amt with
      | Some day, Some a => Some (mkTransaction day dept a what None row)
      | _, _ => None
      end
  | _ => None
  end.

(** [[self.parse_row(row) for row in rows]] *)
Fixpoint parse_rows (rows : list (list string)) : option (list Transaction) :=
  match rows with
  | [] => Some []
  | row :: rows' =>
      match parse_row row, parse_rows rows' with
      | Some txn, Some txns => Some (txn :: txns)
      | _, _ => None
      end
  end.

(** [reconcile_accounts]: build the reconciler, then [reconcile]. *)
Definition reconcile_accounts (transactions1 transactions2 : list (list string))
  : option (list string * list string) :=
  match parse_rows transactions1, parse_rows transactions2 with
  | Some t1, Some t2 => reconcile t1 t2
  | _, _ => None
  end.

(** [line] is [row] with a status appended, joined by commas. *)
Definition line_of (row : list string) (line : string) : Prop :=
  exists s,
    line = String.concat "," (row ++ [s])
    /\ (s = "FOUND"%string \/ s = "MISSING"%string).

End Transactions.

Arguments date {float}.
Arguments department {float}.
Arguments amount {float}.
Arguments name {float}.
Arguments status {float}.
Arguments original_row {float}.
Arguments mkTransaction {float}.
Arguments matches {float}.
Arguments is_date_close {float}.
Arguments positions {float}.
Arguments min_by_date {float}.
Arguments is_exact_match {float}.
Arguments is_close_match {float}.
Arguments find_match {float}.
Arguments set_status {float}.
Arguments set_status_at {float}.
Arguments match_all {float}.
Arguments tag_missing {float}.
Arguments reconciled {float}.
Arguments row_out {float}.
Arguments rows_out {float}.
Arguments reconcile {float}.
Arguments fresh {float}.
Arguments found {float}.
Arguments eligible {float}.
Arguments final_status {float}.
Arguments row_of {float}.
Arguments marked {float}.
Arguments parse_row {float}.
Arguments parse_rows {float}.
Arguments reconcile_accounts {float}.

End Reconcile.

(** ** Example transactions *)

Module ReconcileEx.

Import Reconcile.

(** A transaction as [parse_row] makes it, with amounts in whole units
    and the date as a day number (738521 is 2023-01-01). *)
Definition parsed (day : Z) (dept : string) (amt : Z) (what : string)
           (row : list string) : Transaction Z :=
  mkTransaction day dept amt what None row.

Definition sale_jan1 : Transaction Z :=
  parsed 738521 "Sales" 100 "Product A"
         ["2023-01-01"; "Sales"; "100.00"; "Product A"]%string.

Definition sale_jan2 : Transaction Z :=
  parsed 738522 "Sales" 100 "Product A"
         ["2023-01-02"; "Sales"; "100.00"; "Product A"]%string.

Definition sale_jan3 : Transaction Z :=
  parsed 738523 "Sales" 100 "Product A"
         ["2023-01-03"; "Sales"; "100.00"; "Product A"]%string.

Definition salary_jan5 : Transaction Z :=
  parsed 738525 "HR" 200 "Salary"
         ["2023-01-05"; "HR"; "200.00"; "Salary"]%string.

(** A calendar and a price list for the examples. *)
Definition day_of (s : string) : option Z :=
  if String.eqb s "2023-01-01" then Some 738521
  else if String.eqb s "2023-01-02" then Some 738522
  else if String.eqb s "2023-01-03" then Some 738523
  else None.

Definition whole (s : string) : option Z :=
  if String.eqb s "100.00" then Some 100
  else if String.eqb s "200.00" then Some 200
  else None.

End ReconcileEx.

(** ** Notions used to state the properties *)

(** The byte string holds no delimiter. *)
Definition no_nl (l : bytes) : bool := forallb (fun c => negb (is_nl c)) l.

(** The file's content without the one newline that ends it. *)
Definition strip (content : bytes) : bytes :=
  if endswith_nl content then drop_last content else content.

(** The logical lines of a file in file order: nothing for the empty file,
    otherwise the content, without the newline that ends it, split on the
    delimiter. *)
Definition logical_lines (content : bytes) : list bytes :=
  match content with
  | [] => []
  | _ => split_nl (strip content)
  end.

Definition size_of (content : bytes) : Z := Z.of_nat (List.length content).

(** Lines 47-49. *)
Definition initial_frame (content : bytes) : frame :=
  mkFrame (size_of content) 0 (size_of content) None.

(** The bytes no chunk has covered yet. *)
Definition unread (content : bytes) (fr : frame) : bytes :=
  firstn (Z.to_nat (remaining_size fr)) content.

(** The number of bytes read so far. *)
Definition consumed (fr : frame) : Z := file_size fr - remaining_size fr.

(** The frames the loop runs through on a non-empty file. *)
Record frame_ok (content : bytes) (fr : frame) : Prop := {
  ok_size : file_size fr = size_of content;
  ok_nonempty : 0 < file_size fr;
  ok_remaining : 0 <= remaining_size fr <= file_size fr;
  ok_offset : offset fr = consumed fr;
  ok_segment :
    match segment fr with
    | Some s => no_nl s = true /\ remaining_size fr < file_size fr
    | None => remaining_size fr = file_size fr
    end
}.

(** The lines the [while] loop and the final [yield] still have to
    produce, in the order they are produced. *)
Definition todo (content : bytes) (fr : frame) : list bytes :=
  match segment fr with
  | Some seg => rev (split_nl (unread content fr ++ seg))
  | None => rev (split_nl (strip content))
  end.

(** The lines [lines[-1] += segment] leaves in [lines]. *)
Definition joined (fr : frame) (chunk : bytes) : list bytes :=
  match segment fr with
  | Some s => add_to_last (split_nl chunk) s
  | None => split_nl (strip chunk)
  end.

Definition state_ok (st : gen_state) : Prop :=
  match st with
  | GenCreated | GenClosed => True
  | GenSuspendedFor content fr pending =>
      frame_ok content fr /\ segment fr <> None
      /\ Forall (fun l => no_nl l = true) pending
  | GenSuspendedFinal content fr =>
      frame_ok content fr /\ segment fr <> None /\ remaining_size fr = 0
  end.

(** The lines a suspended generator has still to produce, in the order in
    which it produces them. *)
Definition still_to_come (st : gen_state) : list bytes :=
  match st with
  | GenSuspendedFor content fr pending => pending ++ todo content fr
  | _ => []
  end.

Definition gen_ok (g : generator) : Prop :=
  match state g with
  | GenCreated | GenClosed => True
  | st => 1 <= buf_size g /\ state_ok st
  end.

(** The test of line 37: in lower case and without hyphens the name
    reads as the code spells UTF-8. *)
Definition spelled_utf8 (encoding : string) : bool :=
  str_in (remove_hyphens (lower encoding)) ["utf8"; "utf"]%string.

(** [c.isalnum()] on ASCII characters. *)
Definition is_alnum (c : ascii) : bool :=
  let n := N_of_ascii c in
  (((48 <=? n) && (n <=? 57)) || ((65 <=? n) && (n <=? 90))
   || ((97 <=? n) && (n <=? 122)))%N.

(** The letters and digits of a name. *)
Fixpoint alnum_only (s : string) : string :=
  match s with
  | EmptyString => EmptyString
  | String c r =>
      if is_alnum c then String c (alnum_only r) else alnum_only r
  end.

(** The name may stand for UTF-8: whatever its case and its separators,
    its letters and digits are those of one of the names under which the
    runtime's codec registry knows UTF-8 ([utf_8] and its aliases [u8],
    [utf], [utf8], [utf8_ucs2], [utf8_ucs4], [cp65001]).  The reading is
    generous: a name that fails it stands for another encoding or for
    none. *)
Definition may_name_utf8 (encoding : string) : bool :=
  str_in (alnum_only (lower encoding))
         ["utf8"; "utf"; "u8"; "utf8ucs2"; "utf8ucs4"; "cp65001"]%string.

(** ** The generator, over a codec registry and a file system *)

Section Generator.

(** [decode encoding b] is [b.decode(encoding)]. *)
Variable decode : string -> bytes -> decode_result.
(** What each path denotes. *)
Variable fs : string -> file_status.

(** Lines 73-80: the body of the [for] loop. *)
Definition decode_line (encoding : string) (fr : frame) (line : bytes)
  : text + exn :=
  match decode encoding line with
  | Decoded t => inl (t ++ [nl])
  | UnicodeDecodeError =>
      inr (if remaining_size fr >? 0
           then BufferTooSmallException else UnicodeDecodeErr)
  | LookupError => inr LookupErr
  end.

(** Lines 83-89: the final segment. *)
Definition decode_segment (encoding : string) (seg : bytes) : text + exn :=
  match decode encoding seg with
  | Decoded t => inl (t ++ [nl])
  | UnicodeDecodeError => inr BufferTooSmallException
  | LookupError => inr LookupErr
  end.

(** After the [while] loop: the carried segment is the file's first
    line. *)
Definition finish (content : bytes) (encoding : string) (fr : frame)
           (io : list event) : gen_state * outcome * list event :=
  match segment fr with
  | Some seg =>
      match decode_segment encoding seg with
      | inl item => (GenSuspendedFinal content fr, Yield item, io)
      | inr e => (GenClosed, Raise e, io ++ [EvClose])
      end
  | None => (GenClosed, StopIteration, io ++ [EvClose])
  end.

(** The [for] loop at [line]: yield it or raise. *)
Definition visit (content : bytes) (encoding : string) (fr : frame)
           (line : bytes) (rest : list bytes) (io : list event)
  : gen_state * outcome * list event :=
  match decode_line encoding fr line with
  | inl item => (GenSuspendedFor content fr rest, Yield item, io)
  | inr e => (GenClosed, Raise e, io ++ [EvClose])
  end.

(** Resume inside the [for] loop with [pending] still to visit; when it
    is exhausted go round the [while] loop, and after it to the final
    segment.  [io] accumulates the file operations of this pull. *)
Fixpoint run_loop (fuel : nat) (content : bytes) (buf_size : Z)
         (encoding : string) (fr : frame) (pending : list bytes)
         (io : list event) : gen_state * outcome * list event :=
  match pending with
  | line :: rest => visit content encoding fr line rest io
  | [] =>
      if remaining_size fr >? 0 then
        match fuel with
        | O => (GenClosed, Diverge, io)
        | S fuel' =>
            let '(fr', lines, ev) := loop_body content buf_size fr in
            run_loop fuel' content buf_size encoding fr' lines (io ++ [ev])
        end
      else finish content encoding fr io
  end.

(** The generator from its first statement (lines 36-49). *)
Definition start (filename : string) (buf_size : Z) (encoding : string)
  : gen_state * outcome * list event :=
  if buf_size <? min_buf_size encoding then (GenClosed, Raise ValueError, [])
  else
    match fs filename with
    | Missing => (GenClosed, Raise FileNotFoundError, [EvOpen])
    | Unreadable => (GenClosed, Raise OSError, [EvOpen])
    | Regular content =>
        let file_size := Z.of_nat (List.length content) in
        if file_size =? 0
        then (GenClosed, StopIteration, [EvOpen; EvSeekEnd; EvClose])
        else run_loop (Z.to_nat file_size) content buf_size encoding
                      (mkFrame file_size 0 file_size None) []
                      [EvOpen; EvSeekEnd]
    end.

(** One pull. *)
Definition resume (g : generator) : gen_state * outcome * list event :=
  match state g with
  | GenCreated => start (filename g) (buf_size g) (encoding g)
  | GenSuspendedFor content fr pending =>
      run_loop (Z.to_nat (remaining_size fr)) content (buf_size g)
               (encoding g) fr pending []
  | GenSuspendedFinal _ _ => (GenClosed, StopIteration, [EvClose])
  | GenClosed => (GenClosed, StopIteration, [])
  end.

Definition set_state (g : generator) (s : gen_state) : generator :=
  mkGen (filename g) (buf_size g) (encoding g) s.

Definition next (g : generator) : generator * outcome * list event :=
  let '(s, o, io) := resume g in (set_state g s, o, io).

(** How a run of pulls ended. *)
Inductive ending :=
| Completed
| Failed (e : exn)
| Abandoned
| Stuck.

(** [list(islice(gen, n))], reporting how the run ended: the items, the
    ending, and the file operations of all the pulls. *)
Fixpoint pulls (n : nat) (g : generator) : list text * ending * list event :=
  match n with
  | O => ([], Abandoned, [])
  | S n' =>
      match next g with
      | (g', Yield item, io) =>
          let '(items, e, io') := pulls n' g' in (item :: items, e, io ++ io')
      | (_, StopIteration, io) => ([], Completed, io)
      | (_, Raise e, io) => ([], Failed e, io)
      | (_, Diverge, io) => ([], Stuck, io)
      end
  end.

(** [item] is the text of [line], followed by the newline character the
    generator appends. *)
Definition emitted_for (encoding : string) (line : bytes) (item : text)
  : Prop :=
  exists t, decode encoding line = Decoded t /\ item = t ++ [nl].

(** The line cannot be decoded. *)
Definition undecodable (encoding : string) (line : bytes) : Prop :=
  decode encoding line = UnicodeDecodeError
  \/ decode encoding line = LookupError.

(** The lines a generator has still to produce, in the order in which
    it produces them. *)
Definition future (g : generator) : list bytes :=
  match state g with
  | GenCreated =>
      match fs (filename g) with
      | Regular content => rev (logical_lines content)
      | _ => []
      end
  | st => still_to_come st
  end.

(** What the outcome of a pull says about the lines [todo] that were
    still to come when it began. *)
Definition pull_spec (encoding : string) (todo : list bytes)
           (st : gen_state) (o : outcome) : Prop :=
  state_ok st /\ st <> GenCreated /\
  match o with
  | Yield item =>
      exists l, todo = l :: still_to_come st
                /\ emitted_for encoding l item
  | Raise e =>
      e <> ValueError /\
      exists l rest, todo = l :: rest /\ undecodable encoding l
  | StopIteration => False
  | Diverge => False
  end.

(** Failures that happen before the first chunk is read. *)
Definition startup_failure (g : generator) (e : exn) : Prop :=
  (e = ValueError /\ buf_size g < min_buf_size (encoding g))
  \/ (e = FileNotFoundError /\ fs (filename g) = Missing)
  \/ (e = OSError /\ fs (filename g) = Unreadable).

(** What one pull does to the lines still to come. *)
Definition next_spec (g g' : generator) (o : outcome) : Prop :=
  gen_ok g' /\ state g' <> GenCreated
  /\ filename g' = filename g /\ buf_size g' = buf_size g
  /\ encoding g' = encoding g /\
  match o with
  | Yield item =>
      exists l, future g = l :: future g'
                /\ emitted_for (encoding g) l item
  | StopIteration => future g = []
  | Raise e =>
      (state g = GenCreated /\ startup_failure g e)
      \/ (e <> ValueError /\
          exists l rest, future g = l :: rest
                         /\ undecodable (encoding g) l)
  | Diverge => False
  end.

(** What a run of pulls does: it produces the lines still to come in
    order, and stops early only at a line that cannot be decoded. *)
Definition pulls_spec (n : nat) (g : generator) (items : list text)
           (e : ending) : Prop :=
  exists ls rest,
    future g = ls ++ rest
    /\ Forall2 (emitted_for (encoding g)) ls items
    /\ match e with
       | Completed => rest = []
       | Failed x =>
           (state g = GenCreated /\ startup_failure g x /\ items = [])
           \/ (x <> ValueError /\
               exists l r, rest = l :: r /\ undecodable (encoding g) l)
       | Abandoned => List.length items = n
       | Stuck => False
       end.

(** The generators a sequence of pulls can lead to. *)
Inductive reachable (g0 : generator) : generator -> Prop :=
| reach_start : reachable g0 g0
| reach_next g g' o io :
    reachable g0 g -> next g = (g', o, io) -> reachable g0 g'.

(** The error a line that does not decode is reported with: by [finish]
    when it is the file's first line, by [visit] otherwise, where
    [remaining] bytes are still unread. *)
Definition failure_kind (d : decode_result) (first_line : bool)
           (remaining : Z) : option exn :=
  match d with
  | Decoded _ => None
  | LookupError => Some LookupErr
  | UnicodeDecodeError =>
      Some (if first_line then BufferTooSmallException
            else if remaining >? 0 then BufferTooSmallException
                 else UnicodeDecodeErr)
  end.

(** The reads among the file operations, as (position, length). *)
Fixpoint reads (io : list event) : list (Z * Z) :=
  match io with
  | [] => []
  | EvRead pos n :: io' => (pos, n) :: reads io'
  | _ :: io' => reads io'
  end.

Definition bytes_read (rs : list (Z * Z)) : Z :=
  fold_right (fun r acc => snd r + acc) 0 rs.

(** The backward traversal as the design describes it: with [consumed]
    bytes read, the file is not yet exhausted and the next chunk is
    [[size - min(size, consumed + capacity), size - consumed)]. *)
Fixpoint reads_as_specified (size capacity consumed : Z)
         (rs : list (Z * Z)) : bool :=
  match rs with
  | [] => true
  | (pos, n) :: rs' =>
      negb (consumed =? size)
      && (pos =? size - Z.min size (consumed + capacity))
      && (pos + n =? size - consumed)
      && reads_as_specified size capacity (consumed + n) rs'
  end.

(** Two reads that share no byte. *)
Definition disjoint_reads (r1 r2 : Z * Z) : Prop :=
  fst r1 + snd r1 <= fst r2 \/ fst r2 + snd r2 <= fst r1.

(** The buffer a read hands to [split]: the bytes read, without the
    file's final newline when the read touches the end of the file. *)
Definition chunk_of (content : bytes) (r : Z * Z) : bytes :=
  let buffer := read_at content (fst r) (snd r) in
  if fst r + snd r =? size_of content then strip buffer else buffer.

(** The frame of a suspended generator, with the content of its file. *)
Definition frame_of (st : gen_state) : option (bytes * frame) :=
  match st with
  | GenSuspendedFor content fr _ | GenSuspendedFinal content fr =>
      Some (content, fr)
  | _ => None
  end.

(** The lines the [for] loop has not visited yet. *)
Definition pending_of (st : gen_state) : list bytes :=
  match st with
  | GenSuspendedFor _ _ pending => pending
  | _ => []
  end.

(** What a pull that resumes in the loop reads, where it leaves the
    frame, and how it reports a line that does not decode. *)
Definition trace_spec (content : bytes) (buf_size : Z) (encoding : string)
           (fr : frame) (pending : list bytes) (io : list event)
           (st : gen_state) (o : outcome) (io' : list event) : Prop :=
  exists rs,
    reads io' = reads io ++ rs
    /\ reads_as_specified (file_size fr) buf_size (consumed fr) rs = true
    /\ (pending <> [] -> rs = [])
    /\ (pending = [] -> 0 < remaining_size fr -> rs <> [])
    /\ Forall (fun r => no_nl (chunk_of content r) = true) (removelast rs)
    /\ Forall (fun r => snd r <= buf_size) rs
    /\ (forall item, o = Yield item ->
        exists fr', frame_of st = Some (content, fr')
                    /\ consumed fr' = consumed fr + bytes_read rs
                    /\ (pending <> [] -> pending_of st = tl pending))
    /\ (forall e, o = Raise e ->
        st = GenClosed /\
        exists l rest,
          pending ++ todo content fr = l :: rest
          /\ failure_kind (decode encoding l)
                          (match rest with [] => true | _ => false end)
                          (file_size fr - (consumed fr + bytes_read rs))
             = Some e).

(** The generator reads the file [content] and has read [c] bytes. *)
Definition at_consumed (content : bytes) (g : generator) (c : Z) : Prop :=
  match state g with
  | GenCreated => fs (filename g) = Regular content /\ c = 0
  | GenSuspendedFor content' fr _ | GenSuspendedFinal content' fr =>
      content' = content /\ consumed fr = c
  | GenClosed => False
  end.

(** What one pull reads and how it ends, for a generator that has read
    [c] bytes of [content]. *)
Definition next_trace_spec (content : bytes) (g : generator) (c : Z)
           (g' : generator) (o : outcome) (io : list event) : Prop :=
  let rs := reads io in
  reads_as_specified (size_of content) (buf_size g) c rs = true
  /\ Forall (fun r => snd r <= buf_size g) rs
  /\ Forall (fun r => no_nl (chunk_of content r) = true) (removelast rs)
  /\ (pending_of (state g) <> [] -> rs = [])
  /\ match o with
     | Yield _ =>
         at_consumed content g' (c + bytes_read rs)
         /\ (pending_of (state g) <> [] ->
             pending_of (state g') = tl (pending_of (state g)))
         /\ (state g = GenCreated -> rs <> [])
     | StopIteration => c + bytes_read rs = size_of content
     | Raise e =>
         state g' = GenClosed /\
         ((state g = GenCreated /\ startup_failure g e /\ rs = [])
          \/ (exists l rest,
                 future g = l :: rest
                 /\ failure_kind (decode (encoding g) l)
                                 (match rest with [] => true | _ => false end)
                                 (size_of content - (c + bytes_read rs))
                    = Some e
                 /\ (state g = GenCreated -> rs <> [])))
     | Diverge => True
     end.

(** What a run of pulls reads and how it fails, for a generator that
    has read [c] bytes of [content]. *)
Definition pulls_trace_spec (content : bytes) (g : generator) (c : Z)
           (items : list text) (e : ending) (io : list event) : Prop :=
  let rs := reads io in
  reads_as_specified (size_of content) (buf_size g) c rs = true
  /\ Forall (fun r => snd r <= buf_size g) rs
  /\ match e with
     | Completed => c + bytes_read rs = size_of content
     | Failed x =>
         (state g = GenCreated /\ startup_failure g x /\ rs = [])
         \/ (exists ls l rest,
                future g = ls ++ l :: rest
                /\ Forall2 (emitted_for (encoding g)) ls items
                /\ failure_kind (decode (encoding g) l)
                                (match rest with [] => true | _ => false end)
                                (size_of content - (c + bytes_read rs))
                   = Some x
                /\ (state g = GenCreated -> rs <> []))
     | _ => True
     end.

(** The line can be decoded. *)
Definition decodable (encoding : string) (line : bytes) : Prop :=
  exists t, decode encoding line = Decoded t.

(** The carried segment, when there is one, holds no delimiter. *)
Definition carry_ok (fr : frame) : Prop :=
  match segment fr with
  | Some seg => no_nl seg = true
  | None => True
  end.

(** The generator after [n] pulls. *)
Fixpoint after (n : nat) (g : generator) : generator :=
  match n with
  | O => g
  | S n' => after n' (fst (fst (next g)))
  end.

(** The item produced for a line that decodes. *)
Definition item_of (encoding : string) (line : bytes) : text :=
  match decode encoding line with
  | Decoded t => t ++ [nl]
  | _ => []
  end.

(** The file operations that are the reads [rs]. *)
Definition read_events (rs : list (Z * Z)) : list event :=
  map (fun r => EvRead (fst r) (snd r)) rs.

(** What a pull does to the file when it ends: a pull that yields leaves
    it open, any other one closes it. *)
Definition closing (o : outcome) : list event :=
  match o with
  | Yield _ | Diverge => []
  | StopIteration | Raise _ => [EvClose]
  end.

(** What a run has done to the file when it ends. *)
Definition closed_by (e : ending) : list event :=
  match e with
  | Completed | Failed _ => [EvClose]
  | Abandoned | Stuck => []
  end.

(** The bytes the lines take in the file, one delimiter each included. *)
Definition line_bytes (ls : list bytes) : Z :=
  fold_right (fun l acc => Z.of_nat (List.length l) + 1 + acc) 0 ls.

(** The carried segment and the lines that are still pending all come
    from one chunk, which held one more line. *)
Definition pending_fits (capacity : Z) (st : gen_state) : Prop :=
  match st with
  | GenSuspendedFor _ fr pending =>
      exists seg, segment fr = Some seg
                  /\ Z.of_nat (List.length seg) + line_bytes pending
                     <= capacity - 1
  | _ => True
  end.

(** The encoding gives no line of the file a text that itself ends with
    a newline. *)
Definition no_newline_from_decoding (encoding : string) (content : bytes)
  : Prop :=
  forall line t,
    In line (logical_lines content) ->
    decode encoding line = Decoded t ->
    last t 0%N <> nl.

(** ** Splitting and joining byte strings *)

Lemma is_nl_true c : is_nl c = true <-> c = NL.
Proof.
  unfold is_nl; split; intro H.
  - now apply Byte.byte_dec_bl.
  - now apply Byte.byte_dec_lb.
Qed.

Lemma split_nl_not_nil b : split_nl b <> [].
Proof.
  destruct b as [|c r]; simpl; [discriminate|].
  destruct (is_nl c); [discriminate|].
  destruct (split_nl r); discriminate.
Qed.

Lemma split_nl_cons c r :
  split_nl (c :: r) =
  if is_nl c then [] :: split_nl r
  else (c :: hd [] (split_nl r)) :: tl (split_nl r).
Proof.
  simpl. destruct (is_nl c); [reflexivity|].
  pose proof (split_nl_not_nil r) as H.
  destruct (split_nl r); [contradiction|reflexivity].
Qed.

Lemma split_nl_no_nl b : Forall (fun l => no_nl l = true) (split_nl b).
Proof.
  induction b as [|c r IH]; [repeat constructor|].
  rewrite split_nl_cons.
  destruct (is_nl c) eqn:E.
  - constructor; [reflexivity|assumption].
  - pose proof (split_nl_not_nil r) as Hne.
    destruct (split_nl r) as [|h t]; [contradiction|].
    inversion IH; subst. simpl. constructor; [|assumption].
    simpl. now rewrite E.
Qed.

Lemma split_nl_id l : no_nl l = true -> split_nl l = [l].
Proof.
  induction l as [|c r IH]; [reflexivity|].
  simpl. intro H. apply andb_prop in H as [Hc Hr].
  apply negb_true_iff in Hc. rewrite Hc, (IH Hr). reflexivity.
Qed.

Lemma no_nl_app a b : no_nl (a ++ b) = no_nl a && no_nl b.
Proof. apply forallb_app. Qed.

Lemma add_to_last_cons l r s :
  r <> [] -> add_to_last (l :: r) s = l :: add_to_last r s.
Proof. destruct r; [contradiction|reflexivity]. Qed.

Lemma add_to_last_not_nil ls s : ls <> [] -> add_to_last ls s <> [].
Proof.
  destruct ls as [|l [|l' r]]; simpl; [contradiction| |]; discriminate.
Qed.

Lemma add_to_last_no_nl ls s :
  Forall (fun l => no_nl l = true) ls -> no_nl s = true ->
  Forall (fun l => no_nl l = true) (add_to_last ls s).
Proof.
  intros Hls Hs. induction Hls as [|l r Hl Hr IH]; [constructor|].
  destruct r as [|l' r'].
  - simpl. constructor; [|constructor].
    now rewrite no_nl_app, Hl, Hs.
  - rewrite add_to_last_cons by discriminate. now constructor.
Qed.

(** Splitting distributes over concatenation: the last fragment of the
    left part and the first fragment of the right part are one line. *)
Lemma split_nl_app a b :
  split_nl (a ++ b) =
  add_to_last (split_nl a) (hd [] (split_nl b)) ++ tl (split_nl b).
Proof.
  induction a as [|c r IH].
  - simpl. pose proof (split_nl_not_nil b) as H.
    destruct (split_nl b); [contradiction|reflexivity].
  - rewrite <- app_comm_cons, !split_nl_cons.
    pose proof (split_nl_not_nil r) as Hr.
    destruct (is_nl c).
    + rewrite add_to_last_cons by assumption.
      simpl. now rewrite IH.
    + rewrite IH.
      destruct (split_nl r) as [|h [|h' t]]; [contradiction| |]; reflexivity.
Qed.

Lemma split_nl_app_no_nl a s :
  no_nl s = true -> split_nl (a ++ s) = add_to_last (split_nl a) s.
Proof.
  intro H. rewrite split_nl_app, (split_nl_id _ H). simpl.
  apply app_nil_r.
Qed.

(** Only the first fragment of what has been read matters to what is
    still to be read. *)
Lemma split_nl_carry p x :
  split_nl (p ++ x) = split_nl (p ++ hd [] (split_nl x)) ++ tl (split_nl x).
Proof.
  rewrite split_nl_app. f_equal.
  symmetry. apply split_nl_app_no_nl.
  pose proof (split_nl_no_nl x) as H. pose proof (split_nl_not_nil x) as Hne.
  destruct (split_nl x); [contradiction|]. now inversion H.
Qed.

Lemma endswith_nl_app p c : c <> [] -> endswith_nl (p ++ c) = endswith_nl c.
Proof.
  intro Hc. induction p as [|x p IH]; [reflexivity|].
  simpl. rewrite IH. destruct (p ++ c) eqn:E; [|reflexivity].
  apply app_eq_nil in E as [_ E]. contradiction.
Qed.

Lemma endswith_nl_last b c : endswith_nl (b ++ [c]) = is_nl c.
Proof. rewrite endswith_nl_app by discriminate. reflexivity. Qed.

Lemma endswith_nl_true b :
  endswith_nl b = true -> b = drop_last b ++ [NL].
Proof.
  intro H. destruct b as [|x b0]; [discriminate|].
  destruct (@exists_last _ (x :: b0)) as (b' & c & E); [discriminate|].
  rewrite E in *. rewrite endswith_nl_last in H.
  apply is_nl_true in H. subst c.
  unfold drop_last. now rewrite removelast_last.
Qed.

Lemma strip_app p c : c <> [] -> strip (p ++ c) = p ++ strip c.
Proof.
  intro Hc. unfold strip, drop_last. rewrite endswith_nl_app by assumption.
  destruct (endswith_nl c); [|reflexivity].
  now apply removelast_app.
Qed.

Lemma strip_newline c : strip (c ++ [NL]) = c.
Proof.
  unfold strip, drop_last. rewrite endswith_nl_last.
  simpl. apply removelast_last.
Qed.

Lemma firstn_plus {A} (a b : nat) (l : list A) :
  firstn (a + b) l = firstn a l ++ firstn b (skipn a l).
Proof.
  revert l. induction a as [|a IH]; intros [|x l]; simpl;
    try reflexivity.
  - now rewrite firstn_nil.
  - now rewrite IH.
Qed.

(** Reading the [n] bytes before position [pos + n]. *)
Lemma firstn_read_at (content : bytes) (pos n : Z) :
  0 <= pos -> 0 <= n ->
  firstn (Z.to_nat (pos + n)) content =
  firstn (Z.to_nat pos) content ++ read_at content pos n.
Proof.
  intros Hp Hn. unfold read_at.
  rewrite Z2Nat.inj_add by assumption.
  apply firstn_plus.
Qed.

Lemma read_at_length (content : bytes) (pos n : Z) :
  0 <= pos -> 0 <= n -> pos + n <= Z.of_nat (List.length content) ->
  List.length (read_at content pos n) = Z.to_nat n.
Proof.
  intros Hp Hn Hl. unfold read_at.
  rewrite firstn_length_le; [reflexivity|].
  rewrite length_skipn. lia.
Qed.

(** ** Frames and what they stand for *)

Lemma initial_frame_ok content :
  content <> [] -> frame_ok content (initial_frame content).
Proof.
  intro H. unfold initial_frame, size_of.
  assert (0 < Z.of_nat (List.length content)).
  { destruct content; [contradiction|simpl; lia]. }
  constructor; unfold consumed, size_of;
    cbn [file_size remaining_size offset segment]; lia.
Qed.

(** One iteration of the loop, with the arithmetic carried out. *)
Lemma loop_body_eq content buf_size fr :
  1 <= buf_size -> frame_ok content fr -> 0 < remaining_size fr ->
  let k := Z.min (remaining_size fr) buf_size in
  let chunk := read_at content (remaining_size fr - k) k in
  let L := joined fr chunk in
  loop_body content buf_size fr =
  (mkFrame (file_size fr) (offset fr + k) (remaining_size fr - k)
           (Some (hd [] L)),
   rev (tl L), EvRead (remaining_size fr - k) k).
Proof.
  intros Hb [Hs Hne Hr Ho Hseg] Hpos. unfold consumed in Ho. cbv zeta.
  unfold loop_body, joined, strip_eof_newline, strip.
  replace (Z.min (file_size fr) (offset fr + buf_size))
    with (offset fr + Z.min (remaining_size fr) buf_size) by lia.
  replace (Z.max 0 (file_size fr
                    - (offset fr + Z.min (remaining_size fr) buf_size)))
    with (remaining_size fr - Z.min (remaining_size fr) buf_size) by lia.
  destruct (segment fr) as [s|].
  - destruct Hseg as [_ Hlt].
    replace (remaining_size fr =? file_size fr) with false
      by (symmetry; apply Z.eqb_neq; lia).
    reflexivity.
  - replace (remaining_size fr =? file_size fr) with true
      by (symmetry; apply Z.eqb_eq; lia).
    reflexivity.
Qed.

Lemma hd_no_nl (L : list bytes) :
  Forall (fun l => no_nl l = true) L -> no_nl (hd [] L) = true.
Proof. intros [|]; [reflexivity|assumption]. Qed.

Lemma joined_no_nl fr chunk :
  match segment fr with Some s => no_nl s = true | None => True end ->
  Forall (fun l => no_nl l = true) (joined fr chunk).
Proof.
  unfold joined. destruct (segment fr).
  - intro H. apply add_to_last_no_nl; [apply split_nl_no_nl|assumption].
  - intros _. apply split_nl_no_nl.
Qed.

Lemma Forall_tl {A} (P : A -> Prop) l : Forall P l -> Forall P (tl l).
Proof. intros [|]; [constructor|assumption]. Qed.

(** One iteration keeps the frame well formed, reads strictly less than
    what remained, and splits off exactly the lines that lie between the
    new carried fragment and the old one. *)
Lemma loop_body_ok content buf_size fr fr' lines ev :
  1 <= buf_size -> frame_ok content fr -> 0 < remaining_size fr ->
  loop_body content buf_size fr = (fr', lines, ev) ->
  frame_ok content fr'
  /\ remaining_size fr' < remaining_size fr
  /\ segment fr' <> None
  /\ Forall (fun l => no_nl l = true) lines
  /\ todo content fr = lines ++ todo content fr'.
Proof.
  intros Hb Hok Hpos E.
  rewrite (loop_body_eq content buf_size fr Hb Hok Hpos) in E.
  cbv zeta in E.
  set (k := Z.min (remaining_size fr) buf_size) in *.
  set (chunk := read_at content (remaining_size fr - k) k) in *.
  set (L := joined fr chunk) in *.
  injection E as <- <- <-.
  destruct Hok as [Hs Hne Hr Ho Hseg]. unfold consumed in Ho.
  assert (Hk : 1 <= k <= remaining_size fr) by (unfold k; lia).
  assert (HL : Forall (fun l => no_nl l = true) L).
  { apply joined_no_nl. destruct (segment fr); tauto. }
  assert (Hun : unread content fr =
                firstn (Z.to_nat (remaining_size fr - k)) content ++ chunk).
  { unfold unread, chunk.
    rewrite <- firstn_read_at by lia. f_equal; f_equal. lia. }
  assert (Hchunk : chunk <> []).
  { intro Hnil. pose proof (read_at_length content (remaining_size fr - k) k)
      as Hlen. fold chunk in Hlen. rewrite Hnil in Hlen. simpl in Hlen.
    unfold size_of in Hs. lia. }
  split; [|split; [|split; [|split]]].
  - constructor; unfold consumed; simpl; try lia.
    split; [now apply hd_no_nl|lia].
  - simpl. lia.
  - simpl. discriminate.
  - apply Forall_rev. now apply Forall_tl.
  - unfold todo at 2. simpl. unfold unread at 1. simpl.
    rewrite <- rev_app_distr. unfold todo.
    destruct (segment fr) as [s|] eqn:Es.
    + f_equal. rewrite Hun, <- app_assoc, split_nl_carry.
      destruct Hseg as [Hno _].
      unfold L, joined. rewrite Es.
      now rewrite <- (split_nl_app_no_nl chunk s Hno).
    + f_equal.
      assert (Hall : unread content fr = content).
      { unfold unread. apply firstn_all2. unfold size_of in Hs. lia. }
      rewrite <- Hall at 1. rewrite Hun, strip_app by assumption.
      rewrite split_nl_carry. unfold L, joined. now rewrite Es.
Qed.

(** ** The generator's states *)

Lemma min_buf_size_cases encoding :
  min_buf_size encoding = 4 \/ min_buf_size encoding = 1.
Proof. unfold min_buf_size. destruct (str_in _ _); auto. Qed.

Lemma todo_final content fr :
  frame_ok content fr -> remaining_size fr <= 0 ->
  exists seg, segment fr = Some seg /\ no_nl seg = true
              /\ todo content fr = [seg].
Proof.
  intros [Hs Hne Hr Ho Hseg] H0. unfold todo, unread.
  destruct (segment fr) as [seg|]; [|lia].
  exists seg. destruct Hseg as [Hno _]. repeat split; [assumption|].
  replace (Z.to_nat (remaining_size fr)) with 0%nat by lia.
  simpl. now rewrite split_nl_id.
Qed.

Lemma Forall2_rev {A B} (R : A -> B -> Prop) l l' :
  Forall2 R l l' -> Forall2 R (rev l) (rev l').
Proof.
  induction 1; [constructor|]. simpl.
  apply Forall2_app; [assumption|]. repeat constructor. assumption.
Qed.

Lemma Forall2_flip {A B} (R : A -> B -> Prop) l l' :
  Forall2 R l l' -> Forall2 (fun b a => R a b) l' l.
Proof. induction 1; constructor; assumption. Qed.

(** ** Pulls *)

Lemma decode_line_cases encoding fr line :
  match decode_line encoding fr line with
  | inl item => emitted_for encoding line item
  | inr e => undecodable encoding line /\ e <> ValueError
  end.
Proof.
  unfold decode_line, emitted_for, undecodable.
  destruct (decode encoding line) as [t| |].
  - now exists t.
  - split; [now left|]. destruct (_ >? _); discriminate.
  - split; [now right|discriminate].
Qed.

Lemma decode_segment_cases encoding seg :
  match decode_segment encoding seg with
  | inl item => emitted_for encoding seg item
  | inr e => undecodable encoding seg /\ e <> ValueError
  end.
Proof.
  unfold decode_segment, emitted_for, undecodable.
  destruct (decode encoding seg) as [t| |].
  - now exists t.
  - split; [now left|discriminate].
  - split; [now right|discriminate].
Qed.

(** The three ways a pull goes on inside [run_loop]. *)
Lemma run_loop_cons fuel content buf_size encoding fr line rest io :
  run_loop fuel content buf_size encoding fr (line :: rest) io
  = visit content encoding fr line rest io.
Proof. destruct fuel; reflexivity. Qed.

Lemma run_loop_done fuel content buf_size encoding fr io :
  remaining_size fr <= 0 ->
  run_loop fuel content buf_size encoding fr [] io
  = finish content encoding fr io.
Proof.
  intro H. destruct fuel; simpl;
    (destruct (remaining_size fr >? 0) eqn:E;
     [apply Z.gtb_lt in E; lia|reflexivity]).
Qed.

Lemma run_loop_more fuel content buf_size encoding fr io :
  0 < remaining_size fr ->
  run_loop (S fuel) content buf_size encoding fr [] io
  = let '(fr', lines, ev) := loop_body content buf_size fr in
    run_loop fuel content buf_size encoding fr' lines (io ++ [ev]).
Proof.
  intro H. simpl.
  destruct (remaining_size fr >? 0) eqn:E; [reflexivity|].
  rewrite Z.gtb_ltb in E. apply Z.ltb_ge in E. lia.
Qed.

Lemma visit_spec content encoding fr line rest io st o io' :
  frame_ok content fr -> segment fr <> None ->
  Forall (fun l => no_nl l = true) (line :: rest) ->
  visit content encoding fr line rest io = (st, o, io') ->
  pull_spec encoding ((line :: rest) ++ todo content fr) st o.
Proof.
  intros Hok Hseg Hpend E. unfold visit in E.
  pose proof (decode_line_cases encoding fr line) as Hd.
  inversion Hpend; subst.
  destruct (decode_line encoding fr line) as [item|e];
    injection E as <- <- <-;
    (split; [simpl; tauto|]); (split; [discriminate|]).
  - exists line. split; [reflexivity|assumption].
  - split; [tauto|]. exists line, (rest ++ todo content fr). tauto.
Qed.

Lemma finish_spec content encoding fr io st o io' :
  frame_ok content fr -> remaining_size fr <= 0 ->
  finish content encoding fr io = (st, o, io') ->
  pull_spec encoding (todo content fr) st o.
Proof.
  intros Hok Hrem E. unfold finish in E.
  destruct (todo_final content fr Hok Hrem) as (seg & Es & Hno & Et).
  rewrite Es in E. rewrite Et.
  pose proof (decode_segment_cases encoding seg) as Hd.
  destruct (decode_segment encoding seg) as [item|e];
    injection E as <- <- <-; (split; [|split; [discriminate|]]).
  - simpl. split; [assumption|]. split; [congruence|].
    destruct Hok. lia.
  - exists seg. split; [reflexivity|assumption].
  - exact I.
  - split; [tauto|]. exists seg, []. tauto.
Qed.

Lemma run_loop_spec fuel : forall content buf_size encoding fr pending io
                                  st o io',
  1 <= buf_size -> frame_ok content fr ->
  (pending <> [] -> segment fr <> None) ->
  Forall (fun l => no_nl l = true) pending ->
  (Z.to_nat (remaining_size fr) <= fuel)%nat ->
  run_loop fuel content buf_size encoding fr pending io
  = (st, o, io') ->
  pull_spec encoding (pending ++ todo content fr) st o.
Proof.
  induction fuel as [|fuel IH];
    intros content buf_size encoding fr pending io st o io'
           Hb Hok Hseg Hpend Hfuel E;
    (destruct pending as [|line rest];
     [|rewrite run_loop_cons in E;
       apply (visit_spec _ _ _ _ _ _ _ _ _ Hok) in E;
       [exact E|apply Hseg; discriminate|assumption]]).
  - rewrite run_loop_done in E by lia.
    apply finish_spec in E; [exact E|assumption|lia].
  - destruct (Z_lt_le_dec 0 (remaining_size fr)) as [Hrem|Hrem].
    + rewrite run_loop_more in E by assumption.
      destruct (loop_body content buf_size fr) as [[fr' lines] ev] eqn:Eb.
      destruct (loop_body_ok _ _ _ _ _ _ Hb Hok Hrem Eb)
        as (Hok' & Hlt & Hs' & Hlines & Htodo).
      simpl. rewrite Htodo.
      apply (IH _ _ _ _ _ _ _ _ _ Hb Hok' (fun _ => Hs') Hlines) in E;
        [exact E|lia].
    + rewrite run_loop_done in E by assumption.
      apply finish_spec in E; assumption.
Qed.

Lemma logical_lines_todo content :
  content <> [] ->
  rev (logical_lines content) = todo content (initial_frame content).
Proof. destruct content; [contradiction|reflexivity]. Qed.

Lemma size_of_zero content : size_of content = 0 -> content = [].
Proof. destruct content; [reflexivity|]. unfold size_of. simpl. lia. Qed.

Lemma pull_spec_next g st o todo :
  1 <= buf_size g -> future g = todo ->
  pull_spec (encoding g) todo st o ->
  next_spec g (set_state g st) o.
Proof.
  intros Hb Hf (Hst & Hcre & Ho). unfold next_spec.
  assert (Hfut : future (set_state g st) = still_to_come st).
  { unfold future. simpl. destruct st; try reflexivity. contradiction. }
  split; [|split; [exact Hcre|repeat (split; [reflexivity|])]].
  - unfold gen_ok. simpl. destruct st; simpl in *; tauto.
  - rewrite Hfut, Hf.
    destruct o; try assumption; try contradiction. now right.
Qed.

Lemma start_spec g :
  state g = GenCreated ->
  forall st o io,
    start (filename g) (buf_size g) (encoding g) = (st, o, io) ->
    next_spec g (set_state g st) o.
Proof.
  intros Hg st o io E. unfold start in E.
  assert (Hclosed : forall o',
             match o' with
             | Yield _ | Diverge => False
             | StopIteration => future g = []
             | Raise e => startup_failure g e
             end -> next_spec g (set_state g GenClosed) o').
  { intros o' H. unfold next_spec, gen_ok. simpl.
    repeat (split; [tauto || discriminate|]).
    destruct o'; try contradiction; [assumption|left; tauto]. }
  destruct (buf_size g <? min_buf_size (encoding g)) eqn:Hv.
  { injection E as <- <- <-. apply Hclosed. left.
    apply Z.ltb_lt in Hv. tauto. }
  apply Z.ltb_ge in Hv.
  assert (Hb : 1 <= buf_size g).
  { destruct (min_buf_size_cases (encoding g)); lia. }
  destruct (fs (filename g)) as [| |content] eqn:Ef.
  - injection E as <- <- <-. apply Hclosed. right; left. tauto.
  - injection E as <- <- <-. apply Hclosed. right; right. tauto.
  - fold (size_of content) in E.
    destruct (size_of content =? 0) eqn:Hz.
    + injection E as <- <- <-. apply Hclosed.
      apply Z.eqb_eq, size_of_zero in Hz. subst content.
      unfold future. now rewrite Hg, Ef.
    + apply Z.eqb_neq in Hz.
      assert (Hne : content <> []) by (intros ->; now apply Hz).
      apply (pull_spec_next g st o _ Hb eq_refl).
      unfold future. rewrite Hg, Ef, (logical_lines_todo _ Hne).
      fold (initial_frame content) in E.
      apply run_loop_spec in E;
        [exact E|assumption|now apply initial_frame_ok|congruence
        |constructor|simpl; lia].
Qed.

Theorem next_ok g g' o io :
  gen_ok g -> next g = (g', o, io) -> next_spec g g' o.
Proof.
  intros Hok E. unfold next in E.
  destruct (resume g) as [[st o'] io'] eqn:Er.
  injection E as <- <- <-.
  unfold resume in Er. unfold gen_ok in Hok.
  destruct (state g) as [|content fr pending|content fr|] eqn:Eg.
  - now apply (start_spec g Eg st o' io').
  - destruct Hok as (Hb & Hfr & Hseg & Hpend).
    apply (pull_spec_next g st o' _ Hb eq_refl).
    unfold future. rewrite Eg. simpl.
    apply run_loop_spec in Er;
      [exact Er|assumption|assumption|intros _; assumption
      |assumption|lia].
  - injection Er as <- <- <-. unfold next_spec, gen_ok. simpl.
    repeat (split; [tauto || discriminate|]).
    unfold future. now rewrite Eg.
  - injection Er as <- <- <-. unfold next_spec, gen_ok. simpl.
    repeat (split; [tauto || discriminate|]).
    unfold future. now rewrite Eg.
Qed.

(** No pull runs for ever. *)
Theorem next_returns g g' o io :
  gen_ok g -> next g = (g', o, io) -> o <> Diverge.
Proof.
  intros Hok E Hd. subst o.
  now destruct (next_ok _ _ _ _ Hok E) as (_ & _ & _ & _ & _ & H).
Qed.

Theorem pulls_ok n : forall g items e io,
  gen_ok g -> pulls n g = (items, e, io) ->
  pulls_spec n g items e.
Proof.
  induction n as [|n IH]; intros g items e io Hok E; simpl in E.
  - injection E as <- <- <-. exists [], (future g).
    repeat split; constructor.
  - destruct (next g) as [[g' o] io1] eqn:En.
    apply (next_ok _ _ _ _ Hok) in En.
    destruct En as (Hok' & Hcre & _ & _ & Henc & Ho).
    destruct o as [item| |x|].
    + destruct (pulls n g') as [[items' e'] io2] eqn:Ep.
      injection E as <- <- <-.
      apply (IH _ _ _ _ Hok') in Ep.
      destruct Ep as (ls & rest & Hf & Hall & He).
      destruct Ho as (l & Hfg & Hl).
      exists (l :: ls), rest. rewrite Hfg, Hf, Henc in *.
      split; [reflexivity|]. split; [now constructor|].
      destruct e'; try assumption.
      * destruct He as [(Hc & _)|He]; [contradiction|now right].
      * simpl. now f_equal.
    + injection E as <- <- <-. exists [], []. rewrite Ho.
      repeat split; constructor.
    + injection E as <- <- <-. exists [], (future g).
      split; [reflexivity|]. split; [constructor|].
      destruct Ho as [[Hc Hs]|Ho]; [left; tauto|now right].
    + contradiction.
Qed.

(** ** File operations of a pull *)

Lemma reads_app io io' : reads (io ++ io') = reads io ++ reads io'.
Proof.
  induction io as [|ev io IH]; [reflexivity|].
  destruct ev; simpl; try assumption. now rewrite IH.
Qed.

Lemma bytes_read_app rs rs' :
  bytes_read (rs ++ rs') = bytes_read rs + bytes_read rs'.
Proof.
  induction rs as [|r rs IH]; simpl; [reflexivity|].
  unfold bytes_read in *. simpl. lia.
Qed.

Lemma split_nl_single b : tl (split_nl b) = [] -> no_nl b = true.
Proof.
  induction b as [|c r IH]; [reflexivity|].
  rewrite split_nl_cons. destruct (is_nl c) eqn:E; simpl.
  - intro H. now apply split_nl_not_nil in H.
  - intro H. rewrite E. simpl. now apply IH.
Qed.

Lemma add_to_last_tl ls s : tl (add_to_last ls s) = [] -> tl ls = [].
Proof.
  destruct ls as [|l [|l' r]]; simpl; try reflexivity.
  destruct r; discriminate.
Qed.

Lemma strip_eof_newline_chunk content fr pos n :
  file_size fr = size_of content -> pos + n = remaining_size fr ->
  strip_eof_newline fr (read_at content pos n) = chunk_of content (pos, n).
Proof.
  intros Hs Hr. unfold strip_eof_newline, chunk_of, strip. simpl.
  rewrite Hr, Hs. now destruct (_ =? _).
Qed.

Lemma joined_tl fr chunk :
  tl (joined fr chunk) = [] ->
  no_nl (match segment fr with Some _ => chunk | None => strip chunk end)
  = true.
Proof.
  unfold joined. destruct (segment fr).
  - intro H. now apply split_nl_single, add_to_last_tl with (s := b).
  - apply split_nl_single.
Qed.

Lemma todo_not_nil content fr : todo content fr <> [].
Proof.
  unfold todo. destruct (segment fr); intro H;
    apply (f_equal (@rev bytes)) in H; rewrite rev_involutive in H;
    now apply split_nl_not_nil in H.
Qed.

Lemma visit_trace content buf_size encoding fr line rest io :
  forall st o io',
    visit content encoding fr line rest io = (st, o, io') ->
    trace_spec content buf_size encoding fr (line :: rest) io st o io'.
Proof.
  intros st o io' E. unfold visit, decode_line in E. exists [].
  assert (Hrest : exists x y, rest ++ todo content fr = x :: y).
  { pose proof (todo_not_nil content fr).
    destruct (rest ++ todo content fr) as [|x y] eqn:Ex; [|now eauto].
    apply app_eq_nil in Ex. tauto. }
  destruct Hrest as (x & y & Hxy).
  destruct (decode encoding line) as [t| |] eqn:Ed;
    injection E as <- <- <-;
    (split; [rewrite ?reads_app; simpl; now rewrite app_nil_r|]);
    (split; [reflexivity|]); (split; [reflexivity|]);
    (split; [discriminate|]);
    (split; [constructor|]); (split; [constructor|]);
    (split; [intros item Hi; try discriminate|intros e He; try discriminate]).
  - exists fr. simpl. split; [reflexivity|]. split; [lia|reflexivity].
  - injection He as <-. split; [reflexivity|].
    exists line, (rest ++ todo content fr).
    split; [reflexivity|]. rewrite Hxy, Ed. simpl.
    replace (file_size fr - (consumed fr + 0)) with (remaining_size fr)
      by (unfold consumed; lia).
    reflexivity.
  - injection He as <-. split; [reflexivity|].
    exists line, (rest ++ todo content fr).
    split; [reflexivity|]. now rewrite Ed.
Qed.

Lemma finish_trace content buf_size encoding fr io :
  frame_ok content fr -> remaining_size fr <= 0 ->
  forall st o io',
    finish content encoding fr io = (st, o, io') ->
    trace_spec content buf_size encoding fr [] io st o io'.
Proof.
  intros Hok Hrem st o io' E. unfold finish, decode_segment in E.
  destruct (todo_final content fr Hok Hrem) as (seg & Es & Hno & Et).
  rewrite Es in E. exists [].
  destruct (decode encoding seg) as [t| |] eqn:Ed;
    injection E as <- <- <-;
    (split; [rewrite ?reads_app; simpl; now rewrite app_nil_r|]);
    (split; [reflexivity|]); (split; [reflexivity|]);
    (split; [intros _ Hlt; exfalso; lia|]);
    (split; [constructor|]); (split; [constructor|]);
    (split; [intros item Hi; try discriminate|intros e He; try discriminate]).
  - exists fr. simpl. split; [reflexivity|]. split; [lia|contradiction].
  - injection He as <-. split; [reflexivity|].
    exists seg, []. simpl. now rewrite Et, Ed.
  - injection He as <-. split; [reflexivity|].
    exists seg, []. simpl. now rewrite Et, Ed.
Qed.

Lemma loop_body_read content buf_size fr fr' lines ev :
  1 <= buf_size -> frame_ok content fr -> 0 < remaining_size fr ->
  loop_body content buf_size fr = (fr', lines, ev) ->
  exists pos n,
    ev = EvRead pos n
    /\ reads_as_specified (file_size fr) buf_size (consumed fr) [(pos, n)]
       = true
    /\ n <= buf_size
    /\ file_size fr' = file_size fr
    /\ consumed fr' = consumed fr + n
    /\ (lines = [] -> no_nl (chunk_of content (pos, n)) = true).
Proof.
  intros Hb Hok Hpos E.
  rewrite (loop_body_eq content buf_size fr Hb Hok Hpos) in E.
  cbv zeta in E.
  set (k := Z.min (remaining_size fr) buf_size) in *.
  injection E as <- <- <-.
  destruct Hok as [Hs Hne Hr Ho Hseg]. unfold consumed in *.
  exists (remaining_size fr - k), k. simpl.
  split; [reflexivity|].
  split.
  { rewrite !andb_true_r. repeat (apply andb_true_intro; split).
    - apply negb_true_iff, Z.eqb_neq. lia.
    - apply Z.eqb_eq. lia.
    - apply Z.eqb_eq. lia. }
  split; [lia|]. split; [reflexivity|]. split; [lia|].
  intro Hnil.
  assert (Htl : tl (joined fr (read_at content (remaining_size fr - k) k))
                = []).
  { apply (f_equal (@rev bytes)) in Hnil.
    now rewrite rev_involutive in Hnil. }
  apply joined_tl in Htl. unfold chunk_of. simpl.
  replace (remaining_size fr - k + k) with (remaining_size fr) by lia.
  destruct (segment fr).
  - replace (remaining_size fr =? size_of content) with false
      by (symmetry; apply Z.eqb_neq; lia).
    assumption.
  - replace (remaining_size fr =? size_of content) with true
      by (symmetry; apply Z.eqb_eq; lia).
    assumption.
Qed.

Lemma run_loop_trace fuel : forall content buf_size encoding fr pending io
                                   st o io',
  1 <= buf_size -> frame_ok content fr ->
  (Z.to_nat (remaining_size fr) <= fuel)%nat ->
  run_loop fuel content buf_size encoding fr pending io = (st, o, io') ->
  trace_spec content buf_size encoding fr pending io st o io'.
Proof.
  induction fuel as [|fuel IH];
    intros content buf_size encoding fr pending io st o io' Hb Hok Hfuel E;
    (destruct pending as [|line rest];
     [|rewrite run_loop_cons in E; now apply visit_trace]).
  - rewrite run_loop_done in E by lia.
    apply finish_trace; [assumption|lia|assumption].
  - destruct (Z_lt_le_dec 0 (remaining_size fr)) as [Hrem|Hrem];
      [|rewrite run_loop_done in E by assumption; now apply finish_trace].
    rewrite run_loop_more in E by assumption.
    destruct (loop_body content buf_size fr) as [[fr' lines] ev] eqn:Eb.
    destruct (loop_body_ok _ _ _ _ _ _ Hb Hok Hrem Eb)
      as (Hok' & Hlt & _ & _ & Htodo).
    destruct (loop_body_read _ _ _ _ _ _ Hb Hok Hrem Eb)
      as (pos & n & -> & Hspec & Hn & Hfs & Hcons & Hquiet).
    apply IH in E; [|assumption|assumption|lia].
    destruct E as (rs & Hreads & Hrs & Hpend & _ & Hq & Hle & Hy & Hr).
    exists ((pos, n) :: rs).
    split; [rewrite Hreads, reads_app, <- app_assoc; reflexivity|].
    split.
    { simpl in Hspec |- *. rewrite andb_true_r in Hspec.
      rewrite Hspec. rewrite <- Hcons, <- Hfs. exact Hrs. }
    split; [intro H; now contradiction H|].
    split; [discriminate|].
    split.
    { destruct rs as [|r rs']; [constructor|].
      change (removelast ((pos, n) :: r :: rs'))
        with ((pos, n) :: removelast (r :: rs')).
      constructor; [|assumption].
      apply Hquiet. destruct lines as [|l0 lines0]; [reflexivity|].
      assert (Hnil : r :: rs' = []) by (apply Hpend; discriminate).
      discriminate Hnil. }
    split; [constructor; assumption|].
    split.
    + intros item Hi. destruct (Hy item Hi) as (fr'' & Hf & Hc & _).
      exists fr''. split; [assumption|].
      split; [|intro H; now contradiction H].
      rewrite Hc, Hcons.
      change (bytes_read ((pos, n) :: rs)) with (n + bytes_read rs). lia.
    + intros e He. destruct (Hr e He) as (Hst & l & rest & Hl & Hk).
      split; [assumption|]. exists l, rest.
      change ([] ++ todo content fr) with (todo content fr).
      rewrite Htodo. split; [assumption|].
      rewrite Hfs, Hcons in Hk.
      replace (file_size fr - (consumed fr + bytes_read ((pos, n) :: rs)))
        with (file_size fr - (consumed fr + n + bytes_read rs));
        [assumption|].
      change (bytes_read ((pos, n) :: rs)) with (n + bytes_read rs). lia.
Qed.

Lemma run_loop_next_trace g fuel content fr pending io0 st o io :
  1 <= buf_size g -> frame_ok content fr ->
  (pending <> [] -> segment fr <> None) ->
  Forall (fun l => no_nl l = true) pending ->
  (Z.to_nat (remaining_size fr) <= fuel)%nat ->
  reads io0 = [] ->
  future g = pending ++ todo content fr ->
  pending_of (state g) = pending ->
  (state g = GenCreated -> pending = [] /\ 0 < remaining_size fr) ->
  run_loop fuel content (buf_size g) (encoding g) fr pending io0
  = (st, o, io) ->
  next_trace_spec content g (consumed fr) (set_state g st) o io.
Proof.
  intros Hb Hok Hseg Hpend Hfuel Hio Hfut Hp Hcre E.
  pose proof (run_loop_spec _ _ _ _ _ _ _ _ _ _ Hb Hok Hseg Hpend Hfuel E)
    as (_ & _ & Hspec).
  apply run_loop_trace in E; [|assumption..].
  destruct E as (rs & Hreads & Hrs & Hnone & Hsome & Hq & Hle & Hy & Hr).
  rewrite Hio in Hreads. simpl in Hreads.
  unfold next_trace_spec. cbv zeta. rewrite Hreads, Hp.
  rewrite <- (ok_size _ _ Hok).
  split; [assumption|]. split; [assumption|]. split; [assumption|].
  split; [assumption|].
  destruct o as [item| |e|]; [| contradiction | | exact I].
  - destruct (Hy item eq_refl) as (fr' & Hf & Hc & Htl).
    split; [|split; [|intro H; now apply Hsome; apply Hcre]].
    + unfold at_consumed. simpl.
      destruct st; simpl in Hf; try discriminate;
        injection Hf as -> ->; now split.
    + exact Htl.
  - destruct (Hr e eq_refl) as (Hst & l & rest & Hl & Hk).
    split; [now rewrite Hst|]. right. exists l, rest.
    rewrite Hfut. split; [assumption|]. split; [assumption|].
    intro H. now apply Hsome; apply Hcre.
Qed.

(** What one pull reads. *)
Theorem next_trace content g c g' o io :
  gen_ok g -> at_consumed content g c ->
  next g = (g', o, io) ->
  next_trace_spec content g c g' o io.
Proof.
  intros Hok Hat E. unfold next in E.
  destruct (resume g) as [[st o'] io'] eqn:Er.
  injection E as <- <- <-.
  unfold resume in Er. unfold gen_ok in Hok. unfold at_consumed in Hat.
  destruct (state g) as [|content' fr pending|content' fr|] eqn:Eg;
    [| | |contradiction].
  - destruct Hat as [Ef ->]. unfold start in Er. rewrite Ef in Er.
    destruct (buf_size g <? min_buf_size (encoding g)) eqn:Hv.
    { injection Er as <- <- <-. unfold next_trace_spec. rewrite Eg. simpl.
      repeat (split; [reflexivity || constructor || tauto|]).
      left. split; [reflexivity|].
      split; [|reflexivity]. left. apply Z.ltb_lt in Hv. tauto. }
    apply Z.ltb_ge in Hv.
    assert (Hb : 1 <= buf_size g).
    { destruct (min_buf_size_cases (encoding g)); lia. }
    fold (size_of content) in Er.
    destruct (size_of content =? 0) eqn:Hz.
    { injection Er as <- <- <-. unfold next_trace_spec. rewrite Eg. simpl.
      repeat (split; [reflexivity || constructor || tauto|]).
      apply Z.eqb_eq in Hz. unfold bytes_read. simpl. lia. }
    apply Z.eqb_neq in Hz.
    assert (Hne : content <> []) by (intros ->; now apply Hz).
    fold (initial_frame content) in Er.
    pose proof (initial_frame_ok _ Hne) as Hfr.
    apply (run_loop_next_trace g) in Er; try assumption.
    + replace 0 with (consumed (initial_frame content))
        by (unfold consumed; simpl; lia).
      exact Er.
    + congruence.
    + constructor.
    + simpl. lia.
    + reflexivity.
    + unfold future. rewrite Eg, Ef. now apply logical_lines_todo.
    + now rewrite Eg.
    + intros _. split; [reflexivity|]. simpl. destruct Hfr. simpl in *. lia.
  - destruct Hok as (Hb & Hfr & Hseg & Hpend). destruct Hat as [-> <-].
    apply (run_loop_next_trace g) in Er; try assumption.
    + now intros _.
    + lia.
    + reflexivity.
    + unfold future. now rewrite Eg.
    + now rewrite Eg.
    + intro H. congruence.
  - destruct Hok as (Hb & Hfr & Hseg & Hrem). destruct Hat as [-> <-].
    injection Er as <- <- <-. unfold next_trace_spec. rewrite Eg. simpl.
    repeat (split; [reflexivity || constructor || tauto|]).
    destruct Hfr. unfold consumed, bytes_read. simpl. lia.
Qed.

(** ** Runs *)

Lemma reads_as_specified_app size capacity c rs rs' :
  reads_as_specified size capacity c (rs ++ rs')
  = reads_as_specified size capacity c rs
    && reads_as_specified size capacity (c + bytes_read rs) rs'.
Proof.
  revert c. induction rs as [|[pos n] rs IH]; intro c.
  - simpl. f_equal. unfold bytes_read. simpl. lia.
  - change (bytes_read ((pos, n) :: rs)) with (n + bytes_read rs).
    simpl. rewrite IH, Z.add_assoc, !andb_assoc. reflexivity.
Qed.

Lemma reads_as_specified_bounds size capacity rs : forall c,
  1 <= capacity -> 0 <= c <= size ->
  reads_as_specified size capacity c rs = true ->
  Forall (fun r => 0 <= fst r /\ 0 < snd r <= capacity
                   /\ fst r + snd r <= size - c) rs
  /\ ForallOrdPairs disjoint_reads rs
  /\ c + bytes_read rs <= size.
Proof.
  induction rs as [|[pos n] rs IH]; intros c Hcap Hc H.
  - repeat split; try constructor. unfold bytes_read. simpl. lia.
  - simpl in H. rewrite !andb_true_iff in H.
    destruct H as [[[Hne Hpos] Hend] Hrest].
    apply negb_true_iff, Z.eqb_neq in Hne.
    apply Z.eqb_eq in Hpos. apply Z.eqb_eq in Hend.
    destruct (IH (c + n) Hcap) as (Hall & Hdis & Hsum); [lia|assumption|].
    change (bytes_read ((pos, n) :: rs)) with (n + bytes_read rs).
    split; [|split; [|lia]].
    + constructor; [simpl; lia|].
      eapply Forall_impl; [|exact Hall]. simpl. intros r Hr. lia.
    + constructor; [|assumption].
      eapply Forall_impl; [|exact Hall]. unfold disjoint_reads. simpl.
      intros r Hr. right. lia.
Qed.

(** What a run of pulls reads. *)
Theorem pulls_trace content n : forall g c items e io,
  gen_ok g -> at_consumed content g c ->
  pulls n g = (items, e, io) ->
  pulls_trace_spec content g c items e io.
Proof.
  induction n as [|n IH]; intros g c items e io Hok Hat E; simpl in E.
  - injection E as <- <- <-. unfold pulls_trace_spec. simpl.
    repeat split; constructor.
  - destruct (next g) as [[g' o] io1] eqn:En.
    pose proof (next_ok _ _ _ _ Hok En)
      as (Hok' & Hcre & _ & Hbuf & Henc & Ho).
    pose proof (next_trace _ _ _ _ _ _ Hok Hat En)
      as (Hrs & Hle & _ & _ & Ht).
    destruct o as [item| |x|]; [| | |contradiction].
    + destruct (pulls n g') as [[items' e'] io2] eqn:Ep.
      injection E as <- <- <-.
      destruct Ht as (Hat' & _ & Hfirst).
      destruct (IH _ _ _ _ _ Hok' Hat' Ep) as (Hrs' & Hle' & He).
      destruct Ho as (l0 & Hfut & Hl0).
      unfold pulls_trace_spec. cbv zeta.
      rewrite reads_app, reads_as_specified_app, bytes_read_app.
      rewrite Hbuf in *. rewrite Henc in *.
      split; [now rewrite Hrs, Hrs'|].
      split; [now apply Forall_app|].
      destruct e'; try exact I.
      * lia.
      * destruct He as [(Hc & _)|(ls & l & rest & Hf & Hall & Hk & _)];
          [contradiction|].
        right. exists (l0 :: ls), l, rest. rewrite Hfut, Hf.
        split; [reflexivity|]. split; [now constructor|].
        split; [now rewrite Z.add_assoc|].
        intros Hc Hnil. apply app_eq_nil in Hnil. now apply Hfirst.
    + injection E as <- <- <-. unfold pulls_trace_spec. cbv zeta.
      now repeat split.
    + injection E as <- <- <-. unfold pulls_trace_spec. cbv zeta.
      split; [assumption|]. split; [assumption|].
      destruct Ht as (_ & [Hs|(l & rest & Hf & Hk & Hne)]); [now left|].
      right. exists [], l, rest. repeat split; try assumption. constructor.
Qed.

(** ** Reachable generators *)

Lemma run_loop_closed fuel : forall content buf_size encoding fr pending io
                                    st o io',
  run_loop fuel content buf_size encoding fr pending io = (st, o, io') ->
  (forall item, o <> Yield item) -> st = GenClosed.
Proof.
  assert (Hv : forall content encoding fr line rest io st o io',
             visit content encoding fr line rest io = (st, o, io') ->
             (forall item, o <> Yield item) -> st = GenClosed).
  { intros content encoding fr line rest io st o io' E Hny.
    unfold visit in E. destruct (decode_line encoding fr line);
      injection E as <- <- <-; [now contradiction (Hny t)|reflexivity]. }
  assert (Hf : forall content encoding fr io st o io',
             finish content encoding fr io = (st, o, io') ->
             (forall item, o <> Yield item) -> st = GenClosed).
  { intros content encoding fr io st o io' E Hny.
    unfold finish in E. destruct (segment fr) as [seg|];
      [destruct (decode_segment encoding seg)|];
      injection E as <- <- <-; [now contradiction (Hny t)|reflexivity..]. }
  induction fuel as [|fuel IH];
    intros content buf_size encoding fr pending io st o io' E Hny;
    (destruct pending as [|line rest];
     [|rewrite run_loop_cons in E; now apply Hv in E]);
    simpl in E; destruct (remaining_size fr >? 0);
    try (now apply Hf in E).
  - now injection E as <- <- <-.
  - destruct (loop_body content buf_size fr) as [[fr' lines] ev].
    now apply IH in E.
Qed.

Lemma next_closed g g' o io :
  next g = (g', o, io) -> (forall item, o <> Yield item) ->
  state g' = GenClosed.
Proof.
  intros E Hny. unfold next in E.
  destruct (resume g) as [[st o'] io'] eqn:Er. injection E as <- <- <-.
  simpl. unfold resume in Er.
  destruct (state g) as [|content fr pending|content fr|].
  - unfold start in Er.
    destruct (buf_size g <? min_buf_size (encoding g));
      [now injection Er as <- <- <-|].
    destruct (fs (filename g)) as [| |content];
      try (now injection Er as <- <- <-).
    destruct (_ =? 0); [now injection Er as <- <- <-|].
    now apply run_loop_closed in Er.
  - now apply run_loop_closed in Er.
  - now injection Er as <- <- <-.
  - now injection Er as <- <- <-.
Qed.

Lemma next_of_closed g :
  state g = GenClosed -> next g = (g, StopIteration, []).
Proof.
  intro H. unfold next, resume. rewrite H. unfold set_state.
  destruct g; simpl in *. now subst.
Qed.

(** Every reachable generator is well formed, keeps its arguments, and
    has produced a prefix of the lines the first one had to produce. *)
Lemma reachable_ok g0 g :
  state g0 = GenCreated -> reachable g0 g ->
  gen_ok g /\ filename g = filename g0 /\ buf_size g = buf_size g0
  /\ encoding g = encoding g0
  /\ exists done, future g0 = done ++ future g.
Proof.
  intros H0 Hr. induction Hr as [|g g' o io Hr IH En].
  - unfold gen_ok. rewrite H0. repeat split. now exists [].
  - destruct IH as (Hok & Hf & Hb & He & done & Hd).
    pose proof (next_ok _ _ _ _ Hok En)
      as (Hok' & Hcre & Hf' & Hb' & He' & Ho).
    repeat (split; [congruence|]).
    destruct o as [item| |x|]; [| | |contradiction].
    + destruct Ho as (l & Hl & _). exists (done ++ [l]).
      now rewrite <- app_assoc, Hd, Hl.
    + apply next_closed in En; [|discriminate].
      exists (future g0). unfold future at 3. rewrite En.
      simpl. now rewrite app_nil_r.
    + apply next_closed in En; [|discriminate].
      exists (future g0). unfold future at 3. rewrite En.
      simpl. now rewrite app_nil_r.
Qed.

Lemma reachable_at content g0 g :
  state g0 = GenCreated -> fs (filename g0) = Regular content ->
  reachable g0 g ->
  state g = GenClosed \/ exists c, at_consumed content g c.
Proof.
  intros H0 Hfs Hr. induction Hr as [|g g' o io Hr IH En].
  - right. exists 0. unfold at_consumed. rewrite H0. tauto.
  - destruct (reachable_ok _ _ H0 Hr) as (Hok & _).
    destruct IH as [Hc|(c & Hat)].
    + rewrite (next_of_closed _ Hc) in En. injection En as <- _ _.
      now left.
    + pose proof (next_trace _ _ _ _ _ _ Hok Hat En)
        as (Hrs & Hle & _ & _ & Ht).
      destruct o as [item| |x|];
        try (left; apply (next_closed _ _ _ _ En); discriminate).
      right. exists (c + bytes_read (reads io)). tauto.
Qed.

(** ** The properties of the design *)

Lemma last_lines_created filename buf_size encoding g :
  last_lines filename buf_size encoding = inr g ->
  g = mkGen filename buf_size encoding GenCreated.
Proof. unfold last_lines. now intros [= <-]. Qed.

Lemma future_created filename buf_size encoding content :
  fs filename = Regular content ->
  future (mkGen filename buf_size encoding GenCreated)
  = rev (logical_lines content).
Proof. intro H. unfold future. simpl. now rewrite H. Qed.

Lemma completed_run_lines filename buf_size encoding content n items io :
  fs filename = Regular content ->
  pulls n (mkGen filename buf_size encoding GenCreated)
  = (items, Completed, io) ->
  Forall2 (fun item line => emitted_for encoding line item)
          (rev items) (logical_lines content).
Proof.
  intros Hfs E. apply pulls_ok in E; [|exact I].
  destruct E as (ls & rest & Hf & Hall & ->).
  rewrite (future_created _ _ _ _ Hfs), app_nil_r in Hf.
  apply Forall2_rev, Forall2_flip in Hall.
  now rewrite <- Hf, rev_involutive in Hall.
Qed.

(** C3. On every file on which the sequence completes without error, the
    items collected and reversed are the file's logical lines in file
    order: the item for a line is the text of that line (an element of
    the content split on the delimiter, the one newline that ends the
    file set aside) followed by the newline character.  Lines are thus
    produced from the last one to the first; the empty file has none. *)
Theorem reversed_items_are_the_logical_lines
        filename buf_size encoding g content n items io :
  last_lines filename buf_size encoding = inr g ->
  fs filename = Regular content ->
  pulls n g = (items, Completed, io) ->
  Forall2 (fun item line => emitted_for encoding line item)
          (rev items) (logical_lines content).
Proof.
  intros Hg Hfs E. apply last_lines_created in Hg. subst g.
  now apply completed_run_lines with (1 := Hfs) in E.
Qed.

(** A file all of whose lines decode is read to completion: one pull per
    line and one more. *)
Theorem pulls_completes filename buf_size encoding content :
  fs filename = Regular content ->
  min_buf_size encoding <= buf_size ->
  Forall (decodable encoding) (logical_lines content) ->
  exists items io,
    pulls (S (List.length (logical_lines content)))
          (mkGen filename buf_size encoding GenCreated)
    = (items, Completed, io).
Proof.
  intros Hfs Hb Hdec.
  destruct (pulls _ _) as [[items e] io] eqn:E.
  pose proof E as E'. apply pulls_ok in E'; [|exact I].
  destruct E' as (ls & rest & Hf & Hall & He).
  rewrite (future_created _ _ _ _ Hfs) in Hf. simpl in He, Hall.
  destruct e as [|x| |]; [now exists items, io| | |contradiction].
  - exfalso. destruct He as [(_ & Hs & _)|(_ & l & r & -> & Hu)].
    + unfold startup_failure in Hs. simpl in Hs.
      rewrite Hfs in Hs. destruct Hs as [[_ H]|[[_ H]|[_ H]]];
        [lia|discriminate..].
    + assert (Hin : In l (logical_lines content)).
      { apply in_rev. rewrite Hf. apply in_or_app. right. now left. }
      rewrite Forall_forall in Hdec. destruct (Hdec l Hin) as (t & Ht).
      destruct Hu as [Hu|Hu]; congruence.
  - exfalso. apply Forall2_length in Hall.
    apply (f_equal (@List.length bytes)) in Hf.
    rewrite length_rev, length_app in Hf. lia.
Qed.

Lemma strip_eof_newline_cases fr buffer :
  (strip_eof_newline fr buffer = buffer
   \/ (remaining_size fr = file_size fr
       /\ buffer = strip_eof_newline fr buffer ++ [NL]))
  /\ (remaining_size fr = file_size fr -> endswith_nl buffer = true ->
      buffer = strip_eof_newline fr buffer ++ [NL])
  /\ (remaining_size fr <> file_size fr ->
      strip_eof_newline fr buffer = buffer)
  /\ (endswith_nl buffer = false -> strip_eof_newline fr buffer = buffer).
Proof.
  unfold strip_eof_newline.
  destruct (remaining_size fr =? file_size fr) eqn:Er;
    destruct (endswith_nl buffer) eqn:Ee; simpl;
    [apply Z.eqb_eq in Er|apply Z.eqb_eq in Er
    |apply Z.eqb_neq in Er|apply Z.eqb_neq in Er];
    (split; [|split; [|split]]); try tauto; try discriminate; try lia.
  - right. split; [assumption|]. now apply endswith_nl_true.
  - intros _ _. now apply endswith_nl_true.
Qed.

(** C5. The newline that ends the file is removed exactly once: by the
    iteration that reads the first chunk (the only one that finds
    [remaining_size = file_size]) and only when that chunk ends with the
    delimiter, in which case exactly that one byte is dropped; no later
    iteration alters its chunk.  A file that ends with a newline therefore
    has the lines of its content without that newline, and the file that
    is a single newline gives exactly one item, the empty line. *)
Theorem trailing_newline_is_stripped_once
        filename buf_size encoding g content :
  last_lines filename buf_size encoding = inr g ->
  fs filename = Regular content ->
  min_buf_size encoding <= buf_size ->
  (forall fr buffer,
      (strip_eof_newline fr buffer = buffer
       \/ (remaining_size fr = file_size fr
           /\ buffer = strip_eof_newline fr buffer ++ [NL]))
      /\ (remaining_size fr = file_size fr -> endswith_nl buffer = true ->
          buffer = strip_eof_newline fr buffer ++ [NL])
      /\ (endswith_nl buffer = false ->
          strip_eof_newline fr buffer = buffer))
  /\ remaining_size (initial_frame content)
     = file_size (initial_frame content)
  /\ (forall fr fr' lines ev,
         frame_ok content fr -> 0 < remaining_size fr ->
         loop_body content buf_size fr = (fr', lines, ev) ->
         remaining_size fr' < file_size fr'
         /\ forall buffer, strip_eof_newline fr' buffer = buffer)
  /\ (forall c n items io,
         content = c ++ [NL] ->
         pulls n g = (items, Completed, io) ->
         Forall2 (fun item line => emitted_for encoding line item)
                 (rev items) (split_nl c))
  /\ (content = [NL] -> decode encoding [] = Decoded [] ->
      exists io, pulls 2 g = ([[nl]], Completed, io)).
Proof.
  intros Hg Hfs Hb. apply last_lines_created in Hg. subst g.
  assert (H1 : 1 <= buf_size)
    by (destruct (min_buf_size_cases encoding); lia).
  split; [|split; [reflexivity|split; [|split]]].
  - intros fr buffer.
    pose proof (strip_eof_newline_cases fr buffer). tauto.
  - intros fr fr' lines ev Hok Hpos E.
    destruct (loop_body_ok _ _ _ _ _ _ H1 Hok Hpos E) as (Hok' & Hlt & _).
    assert (Hlt' : remaining_size fr' < file_size fr').
    { destruct Hok, Hok'. lia. }
    split; [assumption|]. intro buffer.
    destruct (strip_eof_newline_cases fr' buffer) as (_ & _ & H & _).
    apply H. lia.
  - intros c n items io -> E.
    apply completed_run_lines with (1 := Hfs) in E.
    unfold logical_lines in E. rewrite strip_newline in E.
    now destruct (c ++ [NL]) eqn:Ec; [destruct c; discriminate|].
  - intros -> Hd.
    destruct (pulls_completes filename buf_size encoding [NL] Hfs Hb)
      as (items & io & E).
    { repeat constructor. now exists []. }
    exists io. change (S (List.length (logical_lines [NL]))) with 2%nat in E.
    rewrite E. repeat f_equal.
    apply completed_run_lines with (1 := Hfs) in E.
    change (logical_lines [NL]) with [@nil byte] in E.
    inversion E as [|item l ritems ls (t & Ht & Hitem) Hrest Hrev]; subst.
    inversion Hrest; subst.
    rewrite Hd in Ht. injection Ht as <-.
    apply (f_equal (@rev text)) in Hrev.
    now rewrite rev_involutive in Hrev.
Qed.

(** C6. For every file and every valid capacity the reads of a run are
    those of the specified backward traversal: starting with nothing
    consumed, each read covers
    [[size - min(size, consumed + capacity), size - consumed)] and adds
    its length to what is consumed; a run that completes has consumed the
    whole file; no two reads share a byte; no read starts before
    offset 0; the empty file is not read at all. *)
Theorem backward_traversal_as_specified
        filename buf_size encoding g content n items e io :
  last_lines filename buf_size encoding = inr g ->
  fs filename = Regular content ->
  min_buf_size encoding <= buf_size ->
  pulls n g = (items, e, io) ->
  reads_as_specified (size_of content) buf_size 0 (reads io) = true
  /\ (e = Completed -> bytes_read (reads io) = size_of content)
  /\ ForallOrdPairs disjoint_reads (reads io)
  /\ Forall (fun r => 0 <= fst r /\ 0 < snd r <= buf_size
                      /\ fst r + snd r <= size_of content) (reads io)
  /\ (content = [] -> reads io = []).
Proof.
  intros Hg Hfs Hb E. apply last_lines_created in Hg. subst g.
  assert (H1 : 1 <= buf_size)
    by (destruct (min_buf_size_cases encoding); lia).
  apply (pulls_trace content) with (c := 0) in E;
    [|exact I|unfold at_consumed; simpl; tauto].
  destruct E as (Hrs & _ & He). simpl in Hrs.
  assert (Hsize : 0 <= size_of content) by (unfold size_of; lia).
  destruct (reads_as_specified_bounds _ _ _ 0 H1 (conj (Z.le_refl 0) Hsize)
                                      Hrs) as (Hall & Hdis & _).
  split; [assumption|]. split; [|split; [assumption|split]].
  - intros ->. lia.
  - eapply Forall_impl; [|exact Hall]. simpl. intros r Hr. lia.
  - intros ->. destruct (reads io) as [|[pos k] rs]; [reflexivity|].
    discriminate Hrs.
Qed.

(** A run that fails on a readable file with a valid capacity fails at a
    line that does not decode, after having produced the lines that
    follow it in the file. *)
Lemma failed_run filename buf_size encoding content n items e io :
  fs filename = Regular content ->
  min_buf_size encoding <= buf_size ->
  pulls n (mkGen filename buf_size encoding GenCreated)
  = (items, Failed e, io) ->
  reads_as_specified (size_of content) buf_size 0 (reads io) = true
  /\ Forall (fun r => snd r <= buf_size) (reads io)
  /\ reads io <> []
  /\ exists ls l rest,
      rev (logical_lines content) = ls ++ l :: rest
      /\ Forall2 (emitted_for encoding) ls items
      /\ failure_kind (decode encoding l)
                      (match rest with [] => true | _ => false end)
                      (size_of content - bytes_read (reads io))
         = Some e.
Proof.
  intros Hfs Hb E.
  apply (pulls_trace content) with (c := 0) in E;
    [|exact I|unfold at_consumed; simpl; tauto].
  destruct E as (Hrs & Hle & He). simpl in Hrs, Hle, He.
  split; [assumption|]. split; [assumption|].
  destruct He as [(_ & Hs & _)|(ls & l & rest & Hf & Hall & Hk & Hne)].
  - exfalso. unfold startup_failure in Hs. simpl in Hs. rewrite Hfs in Hs.
    destruct Hs as [[_ H]|[[_ H]|[_ H]]]; [lia|discriminate..].
  - split; [now apply Hne|]. exists ls, l, rest.
    rewrite (future_created _ _ _ _ Hfs) in Hf. tauto.
Qed.


(** C1, as the code has it.  A run over a file with a line that does not
    decode, at a moment when no byte of the file is unread, fails with
    the decoder's own [UnicodeDecodeError] when the line is not the
    file's first logical line, and with [BufferTooSmallException] when it
    is the first logical line (the final carried segment).  With a
    capacity that spans the whole file every failure happens at such a
    moment. *)
Theorem decode_failure_with_nothing_remaining
        filename buf_size encoding g content n items e io :
  last_lines filename buf_size encoding = inr g ->
  fs filename = Regular content ->
  min_buf_size encoding <= buf_size ->
  pulls n g = (items, Failed e, io) ->
  (exists ls l rest,
      rev (logical_lines content) = ls ++ l :: rest
      /\ Forall2 (emitted_for encoding) ls items
      /\ ~ decodable encoding l
      /\ (decode encoding l = UnicodeDecodeError ->
          bytes_read (reads io) = size_of content ->
          (rest <> [] -> e = UnicodeDecodeErr)
          /\ (rest = [] -> e = BufferTooSmallException)))
  /\ (size_of content <= buf_size ->
      bytes_read (reads io) = size_of content).
Proof.
  intros Hg Hfs Hb E. apply last_lines_created in Hg. subst g.
  destruct (failed_run _ _ _ _ _ _ _ _ Hfs Hb E)
    as (Hrs & Hle & Hne & ls & l & rest & Hl & Hall & Hk).
  split.
  - exists ls, l, rest. split; [assumption|]. split; [assumption|]. split.
    + intros (t & Ht). rewrite Ht in Hk. discriminate.
    + intros Hd Heq. rewrite Hd in Hk. simpl in Hk.
      destruct rest; [split; [tauto|congruence]|].
      replace (_ >? 0) with false in Hk.
      * split; [congruence|discriminate].
      * symmetry. rewrite Z.gtb_ltb. apply Z.ltb_ge. lia.
  - intro Hsz. destruct (reads io) as [|[pos k] rs]; [contradiction|].
    simpl in Hrs. rewrite !andb_true_iff in Hrs.
    destruct Hrs as [[[Hnz Hpos] Hend] Hrest].
    apply Z.eqb_eq in Hpos. apply Z.eqb_eq in Hend.
    assert (Hk' : k = size_of content) by lia.
    destruct rs as [|[pos' k'] rs'].
    + unfold bytes_read. simpl. lia.
    + simpl in Hrest. rewrite !andb_true_iff in Hrest.
      destruct Hrest as [[[Hnz' _] _] _].
      apply negb_true_iff, Z.eqb_neq in Hnz'. lia.
Qed.

Lemma reachable_after n : forall g0 g,
  reachable g0 g -> reachable g0 (after n g).
Proof.
  induction n as [|n IH]; intros g0 g Hr; [exact Hr|].
  simpl. apply IH.
  destruct (next g) as [[g' o] io] eqn:En.
  exact (reach_next g0 g g' o io Hr En).
Qed.

Lemma reachable_created_ok name capacity codec g :
  reachable (mkGen name capacity codec GenCreated) g ->
  gen_ok g /\ filename g = name /\ buf_size g = capacity
  /\ encoding g = codec
  /\ exists done,
      future (mkGen name capacity codec GenCreated) = done ++ future g.
Proof.
  intro Hr.
  exact (reachable_ok (mkGen name capacity codec GenCreated) g eq_refl Hr).
Qed.

Lemma reachable_created_at filename buf_size encoding content g :
  fs filename = Regular content ->
  reachable (mkGen filename buf_size encoding GenCreated) g ->
  state g = GenClosed \/ exists c, at_consumed content g c.
Proof.
  intros Hfs Hr.
  exact (reachable_at content (mkGen filename buf_size encoding GenCreated)
                      g eq_refl Hfs Hr).
Qed.

Lemma logical_lines_no_nl content :
  Forall (fun l => no_nl l = true) (logical_lines content).
Proof.
  destruct content; [constructor|]. apply split_nl_no_nl.
Qed.

Lemma last_app_one {A} (l : list A) (x d : A) : last (l ++ [x]) d = x.
Proof.
  induction l as [|y l IH]; [reflexivity|].
  simpl. rewrite IH. now destruct (l ++ [x]) eqn:E; [destruct l|].
Qed.

(** C8, as the code has it.  Every item is the text of one logical line
    of the file, taken as it is between two delimiters (a carriage return
    before the delimiter is one of its bytes), followed by the one
    newline character the generator appends: the item's last character
    is that newline and what precedes it is the decoded line.  When the
    encoding gives no line of the file a text that itself ends with a
    newline, the item ends with exactly one newline. *)
Theorem every_item_ends_with_the_appended_newline
        filename buf_size encoding g0 g g' item io :
  last_lines filename buf_size encoding = inr g0 ->
  reachable g0 g ->
  next g = (g', Yield item, io) ->
  exists content line t,
    fs filename = Regular content
    /\ In line (logical_lines content)
    /\ no_nl line = true
    /\ decode encoding line = Decoded t
    /\ item = t ++ [nl]
    /\ last item 0%N = nl
    /\ removelast item = t
    /\ (no_newline_from_decoding encoding content ->
        last (removelast item) 0%N <> nl).
Proof.
  intros Hg Hr En. apply last_lines_created in Hg. subst g0.
  destruct (reachable_created_ok _ _ _ _ Hr)
    as (Hok & _ & _ & Henc & done & Hd).
  pose proof (next_ok _ _ _ _ Hok En) as (_ & _ & _ & _ & _ & l & Hl & He).
  rewrite Henc in He. destruct He as (t & Ht & ->).
  rewrite Hl in Hd. unfold future in Hd at 1. simpl in Hd.
  destruct (fs filename) as [| |content];
    try (now destruct done; discriminate).
  assert (Hin : In l (logical_lines content)).
  { apply in_rev. rewrite Hd. apply in_or_app. right. now left. }
  exists content, l, t. split; [reflexivity|]. split; [assumption|].
  split.
  { pose proof (logical_lines_no_nl content) as Hall.
    rewrite Forall_forall in Hall. now apply Hall. }
  split; [assumption|]. split; [reflexivity|].
  split; [apply last_app_one|]. split; [apply removelast_last|].
  intro Hno. rewrite removelast_last. now apply (Hno l t).
Qed.

(** C9, as the code has it.  A pull reads only when no line split from an
    earlier chunk is pending: with a pending line it reads nothing and
    hands out that line.  Otherwise it reads chunk after chunk, each of
    at most the capacity, as long as the chunk read has no delimiter (no
    line is ready), so that every read of a pull but the last returned a
    chunk without a delimiter; what is consumed grows by exactly what the
    pull read, following the backward traversal. *)
Theorem pull_reads_until_a_line_is_ready
        filename buf_size encoding g0 content g g' o io :
  last_lines filename buf_size encoding = inr g0 ->
  fs filename = Regular content ->
  reachable g0 g ->
  next g = (g', o, io) ->
  (pending_of (state g) <> [] ->
   reads io = []
   /\ forall item, o = Yield item ->
                   pending_of (state g') = tl (pending_of (state g)))
  /\ Forall (fun r => snd r <= buf_size) (reads io)
  /\ Forall (fun r => no_nl (chunk_of content r) = true)
            (removelast (reads io))
  /\ (forall c, at_consumed content g c ->
        reads_as_specified (size_of content) buf_size c (reads io) = true
        /\ forall item, o = Yield item ->
             at_consumed content g' (c + bytes_read (reads io))).
Proof.
  intros Hg Hfs Hr En. apply last_lines_created in Hg. subst g0.
  destruct (reachable_created_ok _ _ _ _ Hr) as (Hok & _ & Hbuf & _).
  destruct (reachable_created_at _ _ _ _ _ Hfs Hr) as [Hc|(c & Hat)].
  - rewrite (next_of_closed _ Hc) in En. injection En as <- <- <-.
    rewrite Hc. simpl.
    split; [intro H; now contradiction H|].
    split; [constructor|]. split; [constructor|].
    intros c Hat. unfold at_consumed in Hat. now rewrite Hc in Hat.
  - pose proof (next_trace _ _ _ _ _ _ Hok Hat En)
      as (Hrs & Hle & Hq & Hp & Ht).
    rewrite Hbuf in *.
    split; [|split; [assumption|split; [assumption|]]].
    + intro Hne. split; [now apply Hp|].
      intros item ->. now apply Ht.
    + intros c' Hat'.
      assert (c' = c); [|subst c'].
      { unfold at_consumed in Hat, Hat'.
        destruct (state g); try contradiction;
          destruct Hat as [? ?], Hat' as [? ?]; congruence. }
      split; [assumption|]. intros item ->. now apply Ht.
Qed.

Lemma run_loop_final fuel : forall content buf_size encoding fr pending io
                                   content' fr' item io',
  run_loop fuel content buf_size encoding fr pending io
  = (GenSuspendedFinal content' fr', Yield item, io') ->
  exists seg, segment fr' = Some seg /\ emitted_for encoding seg item.
Proof.
  assert (Hf : forall content encoding fr io content' fr' item io',
             finish content encoding fr io
             = (GenSuspendedFinal content' fr', Yield item, io') ->
             exists seg, segment fr' = Some seg
                         /\ emitted_for encoding seg item).
  { intros content encoding fr io content' fr' item io' E.
    unfold finish in E. destruct (segment fr) as [seg|] eqn:Es;
      [|discriminate].
    pose proof (decode_segment_cases encoding seg) as Hd.
    destruct (decode_segment encoding seg); [|discriminate].
    injection E as <- <- <- <-. now exists seg. }
  induction fuel as [|fuel IH];
    intros content buf_size encoding fr pending io content' fr' item io' E;
    (destruct pending as [|line rest];
     [|rewrite run_loop_cons in E; unfold visit in E;
       destruct (decode_line encoding fr line); discriminate]);
    simpl in E; destruct (remaining_size fr >? 0);
    try (now apply Hf in E).
  - discriminate.
  - destruct (loop_body content buf_size fr) as [[fr1 lines] ev].
    now apply IH in E.
Qed.

(** C10. The carried segment never holds the delimiter: it has none in
    any state a generator can be suspended in, every run through the
    body of the loop that starts with such a segment (or with none) ends
    with such a segment, and the segment left when the chunks are
    exhausted is therefore produced as one line. *)
Theorem carried_segment_has_no_delimiter
        filename buf_size encoding g0 g :
  last_lines filename buf_size encoding = inr g0 ->
  reachable g0 g ->
  (forall content fr,
      frame_of (state g) = Some (content, fr) ->
      exists seg, segment fr = Some seg /\ no_nl seg = true)
  /\ (forall content capacity fr,
         carry_ok fr ->
         exists seg,
           segment (fst (fst (loop_body content capacity fr))) = Some seg
           /\ no_nl seg = true)
  /\ (forall g' item io content fr,
         next g = (g', Yield item, io) ->
         state g' = GenSuspendedFinal content fr ->
         exists seg, segment fr = Some seg /\ no_nl seg = true
                     /\ split_nl seg = [seg]
                     /\ emitted_for encoding seg item).
Proof.
  intros Hg Hr. apply last_lines_created in Hg. subst g0.
  assert (Hsusp : forall g1, reachable
                               (mkGen filename buf_size encoding GenCreated)
                               g1 ->
                  forall content fr,
                    frame_of (state g1) = Some (content, fr) ->
                    exists seg, segment fr = Some seg /\ no_nl seg = true).
  { intros g1 Hr1 content fr Hf.
    destruct (reachable_created_ok _ _ _ _ Hr1) as (Hok & _).
    unfold gen_ok in Hok.
    destruct (state g1) as [|c f p|c f|]; simpl in Hf; try discriminate;
      injection Hf as -> ->; destruct Hok as (_ & Hfr & Hseg & _);
      pose proof (ok_segment _ _ Hfr) as Hs;
      (destruct (segment fr) as [seg|]; [|contradiction]);
      exists seg; tauto. }
  split; [now apply Hsusp|]. split.
  - intros content capacity fr Hc. unfold loop_body. simpl.
    eexists. split; [reflexivity|]. apply hd_no_nl.
    unfold carry_ok in Hc. destruct (segment fr).
    + apply add_to_last_no_nl; [apply split_nl_no_nl|assumption].
    + apply split_nl_no_nl.
  - intros g' item io content fr En Hst.
    destruct (Hsusp g' (reach_next _ _ _ _ _ Hr En) content fr)
      as (seg & Hs & Hno); [now rewrite Hst|].
    exists seg. split; [assumption|]. split; [assumption|].
    split; [now apply split_nl_id|].
    destruct (reachable_created_ok _ _ _ _ Hr) as (_ & _ & _ & Henc & _).
    unfold next in En. destruct (resume g) as [[st o'] io'] eqn:Er.
    injection En as Hg' Ho Hio. subst g' o' io'. simpl in Hst. subst st.
    unfold resume in Er.
    assert (Hfin : exists seg', segment fr = Some seg'
                                /\ emitted_for encoding seg' item).
    { destruct (state g) as [|c f p|c f|]; try discriminate.
      - unfold start in Er.
        destruct (_ <? _); [discriminate|].
        destruct (fs _); try discriminate.
        destruct (_ =? 0); [discriminate|].
        apply run_loop_final in Er. now rewrite Henc in Er.
      - apply run_loop_final in Er. now rewrite Henc in Er. }
    destruct Hfin as (seg' & Hs' & He). congruence.
Qed.

(** C2, as the code has it.  A capacity below the encoding's minimum is
    rejected with [ValueError] by the first pull, before the file is
    touched; the call itself returns the generator and raises nothing,
    and a caller that never pulls sees no error. *)
Theorem capacity_is_checked_by_the_first_pull filename buf_size encoding :
  buf_size < min_buf_size encoding ->
  exists g,
    last_lines filename buf_size encoding = inr g
    /\ state g = GenCreated
    /\ pulls 0 g = ([], Abandoned, [])
    /\ next g = (set_state g GenClosed, Raise ValueError, []).
Proof.
  intro H. eexists. split; [reflexivity|]. split; [reflexivity|].
  split; [reflexivity|].
  unfold next, resume, start. simpl.
  apply Z.ltb_lt in H. now rewrite H.
Qed.

Lemma alnum_only_remove_hyphens s :
  alnum_only (remove_hyphens s) = alnum_only s.
Proof.
  induction s as [|c r IH]; [reflexivity|].
  cbn [remove_hyphens]. destruct (Ascii.eqb_spec c "-"%char) as [->|_].
  - exact IH.
  - cbn [alnum_only]. now rewrite IH.
Qed.

(** A name the code takes for UTF-8 is one that may stand for it. *)
Lemma spelled_may_name encoding :
  spelled_utf8 encoding = true -> may_name_utf8 encoding = true.
Proof.
  unfold spelled_utf8, may_name_utf8, str_in.
  rewrite <- (alnum_only_remove_hyphens (lower encoding)).
  cbn [existsb]. rewrite !orb_false_r, orb_true_iff.
  intros [H|H]; apply String.eqb_eq in H; rewrite H; reflexivity.
Qed.

Lemma min_buf_size_spelled encoding :
  min_buf_size encoding = if spelled_utf8 encoding then 4 else 1.
Proof. reflexivity. Qed.

(** C4, as the code is designed.  For a name spelled as UTF-8 (in lower
    case and without hyphens it reads ["utf8"] or ["utf"]) the minimum
    capacity is 4; for a name that does not stand for UTF-8, whatever the
    width of the encoding it stands for, the minimum is 1.  In both cases
    a capacity below the minimum makes the first pull raise [ValueError],
    and a capacity at or above it never does. *)
Theorem minimum_capacity_by_encoding_name filename buf_size encoding g :
  last_lines filename buf_size encoding = inr g ->
  (spelled_utf8 encoding = true ->
   min_buf_size encoding = 4
   /\ (buf_size < 4 -> snd (fst (next g)) = Raise ValueError)
   /\ (4 <= buf_size -> snd (fst (next g)) <> Raise ValueError))
  /\ (may_name_utf8 encoding = false ->
      min_buf_size encoding = 1
      /\ (buf_size < 1 -> snd (fst (next g)) = Raise ValueError)
      /\ (1 <= buf_size -> snd (fst (next g)) <> Raise ValueError)).
Proof.
  intros Hg. apply last_lines_created in Hg. subst g.
  assert (Hlow : buf_size < min_buf_size encoding ->
                 snd (fst (next (mkGen filename buf_size encoding
                                       GenCreated)))
                 = Raise ValueError).
  { intro H. unfold next, resume, start. simpl.
    apply Z.ltb_lt in H. now rewrite H. }
  assert (Hhigh : min_buf_size encoding <= buf_size ->
                  snd (fst (next (mkGen filename buf_size encoding
                                        GenCreated)))
                  <> Raise ValueError).
  { intros H E.
    destruct (next _) as [[g' o] io] eqn:En. simpl in E. subst o.
    apply next_ok in En; [|exact I].
    destruct En as (_ & _ & _ & _ & _ & [(_ & Hs)|(Hne & _)]);
      [|now apply Hne].
    unfold startup_failure in Hs. simpl in Hs.
    destruct Hs as [[_ Hlt]|[[Hd _]|[Hd _]]]; [lia|discriminate..]. }
  rewrite min_buf_size_spelled in Hlow, Hhigh. split.
  - intro Hs. rewrite min_buf_size_spelled, Hs in *. auto.
  - intro Hn.
    destruct (spelled_utf8 encoding) eqn:Hs.
    + apply spelled_may_name in Hs. congruence.
    + rewrite min_buf_size_spelled, Hs. auto.
Qed.

(** ** Further properties of [last_lines] *)

Lemma emitted_for_item_of encoding line item :
  emitted_for encoding line item -> item = item_of encoding line.
Proof. intros (t & Ht & ->). unfold item_of. now rewrite Ht. Qed.

Lemma Forall2_emitted_map encoding ls items :
  Forall2 (emitted_for encoding) ls items ->
  items = map (item_of encoding) ls.
Proof.
  induction 1 as [|l item ls items Hl _ IH]; [reflexivity|].
  simpl. now rewrite <- IH, <- (emitted_for_item_of _ _ _ Hl).
Qed.

Lemma Forall2_emitted_decodable encoding ls items :
  Forall2 (emitted_for encoding) ls items ->
  Forall (decodable encoding) ls.
Proof.
  induction 1 as [|l item ls items (t & Ht & _) _ IH]; constructor;
    [now exists t|assumption].
Qed.

(** Whatever the number of pulls, the items of a run are the items of the
    file's last lines, last line first: a run is a prefix of the complete
    sequence, and a run that is abandoned after [n] pulls has produced
    exactly the last [n] lines. *)
Theorem items_are_the_last_lines
        filename buf_size encoding g content n items e io :
  last_lines filename buf_size encoding = inr g ->
  fs filename = Regular content ->
  pulls n g = (items, e, io) ->
  items = map (item_of encoding)
              (firstn (List.length items) (rev (logical_lines content)))
  /\ Forall (decodable encoding)
            (firstn (List.length items) (rev (logical_lines content)))
  /\ (List.length items <= List.length (logical_lines content))%nat
  /\ (e = Abandoned -> List.length items = n).
Proof.
  intros Hg Hfs E. apply last_lines_created in Hg. subst g.
  apply pulls_ok in E; [|exact I].
  destruct E as (ls & rest & Hf & Hall & He).
  rewrite (future_created _ _ _ _ Hfs) in Hf. simpl in Hall.
  pose proof (Forall2_length Hall) as Hlen.
  assert (Hfirst : firstn (List.length items) (rev (logical_lines content))
                   = ls).
  { rewrite Hf, <- Hlen, firstn_app, firstn_all, Nat.sub_diag.
    simpl. apply app_nil_r. }
  rewrite Hfirst.
  split; [now apply Forall2_emitted_map|].
  split; [now apply Forall2_emitted_decodable with (items := items)|].
  split.
  - apply (f_equal (@List.length bytes)) in Hf.
    rewrite length_rev, length_app in Hf. lia.
  - intros ->. exact He.
Qed.

(** When every logical line of the file decodes, no run fails, whatever
    the capacity: a character cut by a chunk boundary is never decoded in
    pieces, since only whole lines are decoded. *)
Theorem no_failure_when_all_lines_decode
        filename buf_size encoding g content n items e io :
  last_lines filename buf_size encoding = inr g ->
  fs filename = Regular content ->
  min_buf_size encoding <= buf_size ->
  Forall (decodable encoding) (logical_lines content) ->
  pulls n g = (items, e, io) ->
  e = Completed \/ (e = Abandoned /\ List.length items = n).
Proof.
  intros Hg Hfs Hb Hdec E. apply last_lines_created in Hg. subst g.
  apply pulls_ok in E; [|exact I].
  destruct E as (ls & rest & Hf & Hall & He).
  rewrite (future_created _ _ _ _ Hfs) in Hf. simpl in He.
  destruct e as [|x| |]; [now left| |now right|contradiction].
  exfalso. destruct He as [(_ & Hs & _)|(_ & l & r & -> & Hu)].
  - unfold startup_failure in Hs. simpl in Hs.
    rewrite Hfs in Hs. destruct Hs as [[_ H]|[[_ H]|[_ H]]];
      [lia|discriminate..].
  - assert (Hin : In l (logical_lines content)).
    { apply in_rev. rewrite Hf. apply in_or_app. right. now left. }
    rewrite Forall_forall in Hdec. destruct (Hdec l Hin) as (t & Ht).
    destruct Hu as [Hu|Hu]; congruence.
Qed.

(** When every logical line of the file decodes, any run of more pulls
    than the file has lines completes, whatever the valid capacity, and
    its items are exactly the items of the lines, last line first; a line
    longer than the capacity comes out whole. *)
Theorem complete_output
        filename buf_size encoding g content n :
  last_lines filename buf_size encoding = inr g ->
  fs filename = Regular content ->
  min_buf_size encoding <= buf_size ->
  Forall (decodable encoding) (logical_lines content) ->
  (List.length (logical_lines content) < n)%nat ->
  exists io,
    pulls n g
    = (map (item_of encoding) (rev (logical_lines content)), Completed, io).
Proof.
  intros Hg Hfs Hb Hdec Hn.
  destruct (pulls n g) as [[items e] io] eqn:E.
  destruct (items_are_the_last_lines _ _ _ _ _ _ _ _ _ Hg Hfs E)
    as (_ & _ & Hle & _).
  destruct (no_failure_when_all_lines_decode _ _ _ _ _ _ _ _ _
                                             Hg Hfs Hb Hdec E)
    as [->|[_ Hlen]]; [|lia].
  exists io. repeat f_equal.
  apply last_lines_created in Hg. subst g.
  apply completed_run_lines with (1 := Hfs) in E.
  apply Forall2_flip, Forall2_emitted_map in E.
  rewrite map_rev, <- E. now rewrite rev_involutive.
Qed.

(** A file with a logical line that does not decode is never read to
    completion, whatever the capacity and the number of pulls. *)
Theorem no_completion_with_an_undecodable_line
        filename buf_size encoding g content line n items e io :
  last_lines filename buf_size encoding = inr g ->
  fs filename = Regular content ->
  In line (logical_lines content) ->
  undecodable encoding line ->
  pulls n g = (items, e, io) ->
  e <> Completed
  /\ ((List.length (logical_lines content) <= n)%nat ->
      exists x, e = Failed x).
Proof.
  intros Hg Hfs Hin Hu E.
  assert (Hnc : e <> Completed).
  { intros ->. apply last_lines_created in Hg. subst g.
    apply completed_run_lines with (1 := Hfs) in E.
    apply Forall2_flip, Forall2_emitted_decodable in E.
    rewrite Forall_forall in E. destruct (E line Hin) as (t & Ht).
    destruct Hu as [Hu|Hu]; congruence. }
  split; [assumption|]. intro Hn.
  destruct (items_are_the_last_lines _ _ _ _ _ _ _ _ _ Hg Hfs E)
    as (_ & Hdec & Hle & Hab).
  apply last_lines_created in Hg. subst g.
  pose proof E as E'. apply pulls_ok in E'; [|exact I].
  destruct E' as (ls & rest & _ & _ & He).
  destruct e as [|x| |];
    [now contradiction Hnc|now exists x| |contradiction].
  exfalso. specialize (Hab eq_refl).
  assert (Hall : List.length items = List.length (logical_lines content))
    by lia.
  rewrite Hall, <- length_rev, firstn_all in Hdec.
  rewrite Forall_forall in Hdec.
  destruct (Hdec line) as (t & Ht); [now apply in_rev in Hin|].
  destruct Hu as [Hu|Hu]; congruence.
Qed.

(** The items of a complete run do not depend on the capacity nor on the
    number of pulls. *)
Theorem items_independent_of_capacity
        filename encoding content b1 b2 g1 g2 n1 n2 items1 items2 io1 io2 :
  last_lines filename b1 encoding = inr g1 ->
  last_lines filename b2 encoding = inr g2 ->
  fs filename = Regular content ->
  pulls n1 g1 = (items1, Completed, io1) ->
  pulls n2 g2 = (items2, Completed, io2) ->
  items1 = items2.
Proof.
  intros Hg1 Hg2 Hfs E1 E2.
  destruct (items_are_the_last_lines _ _ _ _ _ _ _ _ _ Hg1 Hfs E1)
    as (H1 & _ & Hl1 & _).
  destruct (items_are_the_last_lines _ _ _ _ _ _ _ _ _ Hg2 Hfs E2)
    as (H2 & _ & Hl2 & _).
  apply last_lines_created in Hg1, Hg2. subst g1 g2.
  apply completed_run_lines with (1 := Hfs) in E1, E2.
  apply Forall2_length in E1, E2. rewrite length_rev in E1, E2.
  rewrite H1, H2, E1, E2. reflexivity.
Qed.

Lemma logical_lines_trailing_newline c :
  c <> [] -> endswith_nl c = false ->
  logical_lines (c ++ [NL]) = logical_lines c.
Proof.
  intros Hne He. unfold logical_lines.
  rewrite strip_newline. unfold strip. rewrite He.
  destruct c; [contradiction|reflexivity].
Qed.

(** A newline at the end of the file makes no difference: a non-empty
    file that does not end with a newline and the same file with one
    newline appended give the same items. *)
Theorem trailing_newline_makes_no_difference
        f1 f2 encoding content b1 b2 g1 g2 n1 n2 items1 items2 io1 io2 :
  last_lines f1 b1 encoding = inr g1 ->
  last_lines f2 b2 encoding = inr g2 ->
  fs f1 = Regular content ->
  fs f2 = Regular (content ++ [NL]) ->
  content <> [] -> endswith_nl content = false ->
  pulls n1 g1 = (items1, Completed, io1) ->
  pulls n2 g2 = (items2, Completed, io2) ->
  items1 = items2.
Proof.
  intros Hg1 Hg2 Hf1 Hf2 Hne He E1 E2.
  apply last_lines_created in Hg1, Hg2. subst g1 g2.
  apply completed_run_lines with (1 := Hf1) in E1.
  apply completed_run_lines with (1 := Hf2) in E2.
  rewrite (logical_lines_trailing_newline _ Hne He) in E2.
  apply Forall2_flip, Forall2_emitted_map in E1, E2.
  rewrite <- E2 in E1.
  apply (f_equal (@rev text)) in E1. now rewrite !rev_involutive in E1.
Qed.

(** A complete run has no items exactly when the file is empty: every
    other file, the one-newline file included, gives at least one. *)
Theorem no_items_iff_empty_file
        filename buf_size encoding g content n items io :
  last_lines filename buf_size encoding = inr g ->
  fs filename = Regular content ->
  pulls n g = (items, Completed, io) ->
  (items = [] <-> content = [])
  /\ List.length items = List.length (logical_lines content).
Proof.
  intros Hg Hfs E. apply last_lines_created in Hg. subst g.
  apply completed_run_lines with (1 := Hfs) in E.
  apply Forall2_length in E. rewrite length_rev in E.
  split; [|assumption]. split.
  - intros ->. destruct content as [|c r]; [reflexivity|].
    exfalso. unfold logical_lines in E.
    pose proof (split_nl_not_nil (strip (c :: r))) as H.
    destruct (split_nl (strip (c :: r))); [contradiction|discriminate].
  - intros ->. now destruct items.
Qed.

Lemma run_loop_events fuel : forall content buf_size encoding fr pending io
                                    st o io',
  run_loop fuel content buf_size encoding fr pending io = (st, o, io') ->
  (exists rs, io' = io ++ read_events rs ++ closing o)
  /\ (forall item, o = Yield item -> frame_of st <> None).
Proof.
  assert (Hv : forall content encoding fr line rest io st o io',
             visit content encoding fr line rest io = (st, o, io') ->
             (exists rs, io' = io ++ read_events rs ++ closing o)
             /\ (forall item, o = Yield item -> frame_of st <> None)).
  { intros content encoding fr line rest io st o io' E.
    unfold visit in E. destruct (decode_line encoding fr line);
      injection E as <- <- <-; (split; [exists []|]); simpl;
      try (now rewrite app_nil_r); try reflexivity; discriminate. }
  assert (Hf : forall content encoding fr io st o io',
             finish content encoding fr io = (st, o, io') ->
             (exists rs, io' = io ++ read_events rs ++ closing o)
             /\ (forall item, o = Yield item -> frame_of st <> None)).
  { intros content encoding fr io st o io' E.
    unfold finish in E. destruct (segment fr) as [seg|];
      [destruct (decode_segment encoding seg)|];
      injection E as <- <- <-; (split; [exists []|]); simpl;
      try (now rewrite app_nil_r); try reflexivity; discriminate. }
  induction fuel as [|fuel IH];
    intros content buf_size encoding fr pending io st o io' E;
    (destruct pending as [|line rest];
     [|rewrite run_loop_cons in E; now apply Hv in E]);
    simpl in E; destruct (remaining_size fr >? 0);
    try (now apply Hf in E).
  - injection E as <- <- <-. split; [exists []|discriminate].
    simpl. now rewrite app_nil_r.
  - unfold loop_body in E. apply IH in E.
    destruct E as ((rs & ->) & Hy). split; [|assumption].
    eexists ((_, _) :: rs). rewrite <- app_assoc. reflexivity.
Qed.

Lemma next_events_suspended g g' o io :
  frame_of (state g) <> None ->
  next g = (g', o, io) ->
  (exists rs, io = read_events rs ++ closing o)
  /\ (forall item, o = Yield item -> frame_of (state g') <> None).
Proof.
  intros Hs E. unfold next in E.
  destruct (resume g) as [[st o'] io'] eqn:Er.
  injection E as <- <- <-. simpl. unfold resume in Er.
  destruct (state g) as [|content fr pending|content fr|];
    try (now contradiction Hs).
  - now apply run_loop_events in Er.
  - injection Er as <- <- <-. split; [now exists []|discriminate].
Qed.

Lemma pulls_S n g :
  pulls (S n) g =
  match next g with
  | (g', Yield item, io) =>
      let '(items, e, io') := pulls n g' in (item :: items, e, io ++ io')
  | (_, StopIteration, io) => ([], Completed, io)
  | (_, Raise e, io) => ([], Failed e, io)
  | (_, Diverge, io) => ([], Stuck, io)
  end.
Proof. reflexivity. Qed.

Lemma pulls_events_suspended n : forall g items e io,
  frame_of (state g) <> None ->
  pulls (S n) g = (items, e, io) ->
  exists rs, io = read_events rs ++ closed_by e.
Proof.
  induction n as [|n IH]; intros g items e io Hs E;
    rewrite pulls_S in E;
    destruct (next g) as [[g' o] io1] eqn:En;
    destruct (next_events_suspended _ _ _ _ Hs En) as ((rs & ->) & Hy);
    (destruct o as [item| |x|];
     [|injection E as <- <- <-; now exists rs..]).
  - injection E as <- <- <-. exists rs. simpl.
    now rewrite !app_nil_r.
  - destruct (pulls (S n) g') as [[items' e'] io2] eqn:Ep.
    injection E as <- <- <-.
    apply IH in Ep; [|now apply (Hy item)].
    destruct Ep as (rs' & ->). exists (rs ++ rs'). simpl.
    unfold read_events. now rewrite app_nil_r, map_app, app_assoc.
Qed.

(** The file is opened once and closed once: a run on a readable file
    with a valid capacity opens the file, asks for its size, performs its
    reads and nothing else, and closes the file exactly when it ends by
    exhaustion or by an error; a run that is abandoned leaves it open.
    Nothing is read after the file is closed. *)
Theorem file_opened_once_and_closed_at_the_end
        filename buf_size encoding g content n items e io :
  last_lines filename buf_size encoding = inr g ->
  fs filename = Regular content ->
  min_buf_size encoding <= buf_size ->
  pulls (S n) g = (items, e, io) ->
  io = [EvOpen; EvSeekEnd] ++ read_events (reads io) ++ closed_by e.
Proof.
  intros Hg Hfs Hb E. apply last_lines_created in Hg. subst g.
  assert (Hshape : exists rs,
             io = [EvOpen; EvSeekEnd] ++ read_events rs ++ closed_by e).
  { rewrite pulls_S in E.
    destruct (next _) as [[g' o] io1] eqn:En.
    unfold next in En.
    destruct (resume _) as [[st o'] io'] eqn:Er.
    injection En as <- <- <-.
    unfold resume, start in Er. simpl in Er. rewrite Hfs in Er.
    replace (buf_size <? min_buf_size encoding) with false in Er
      by (symmetry; apply Z.ltb_ge; lia).
    destruct (Z.of_nat (List.length content) =? 0).
    { injection Er as <- <- <-. injection E as <- <- <-. now exists []. }
    apply run_loop_events in Er. destruct Er as ((rs & ->) & Hy).
    destruct o' as [item| |x|];
      try (injection E as <- <- <-; now exists rs).
    destruct n as [|n].
    - simpl in E. injection E as <- <- <-. exists rs.
      simpl. now rewrite !app_nil_r.
    - destruct (pulls (S n) _) as [[items' e'] io2] eqn:Ep.
      injection E as <- <- <-.
      apply pulls_events_suspended in Ep; [|now apply (Hy item)].
      destruct Ep as (rs' & ->). exists (rs ++ rs'). simpl.
      unfold read_events. now rewrite app_nil_r, map_app, <- app_assoc. }
  destruct Hshape as (rs & Hio).
  assert (Hreads : reads io = rs).
  { rewrite Hio. simpl. rewrite reads_app.
    assert (H1 : forall l, reads (read_events l) = l).
    { induction l as [|[p k] l IH]; [reflexivity|]. simpl. now rewrite IH. }
    rewrite H1. destruct e; simpl; apply app_nil_r. }
  now rewrite Hreads.
Qed.

(** ** How much of the file a partial run reads *)

Lemma line_bytes_cons l ls :
  line_bytes (l :: ls) = Z.of_nat (List.length l) + 1 + line_bytes ls.
Proof. reflexivity. Qed.

Lemma line_bytes_app ls ls' :
  line_bytes (ls ++ ls') = line_bytes ls + line_bytes ls'.
Proof.
  induction ls as [|l ls IH]; [reflexivity|].
  rewrite <- app_comm_cons, !line_bytes_cons, IH. lia.
Qed.

Lemma line_bytes_rev ls : line_bytes (rev ls) = line_bytes ls.
Proof.
  induction ls as [|l ls IH]; [reflexivity|].
  cbn [rev]. rewrite line_bytes_app, IH, !line_bytes_cons.
  change (line_bytes []) with 0. lia.
Qed.

Lemma line_bytes_nonneg ls : 0 <= line_bytes ls.
Proof.
  induction ls as [|l ls IH]; [reflexivity|].
  rewrite line_bytes_cons. lia.
Qed.

(** The lines of a byte string take its length and one delimiter more. *)
Lemma line_bytes_split_nl b :
  line_bytes (split_nl b) = Z.of_nat (List.length b) + 1.
Proof.
  induction b as [|c r IH]; [reflexivity|].
  rewrite split_nl_cons.
  pose proof (split_nl_not_nil r) as Hne.
  destruct (split_nl r) as [|h t]; [contradiction|].
  cbn [hd tl]. rewrite line_bytes_cons in IH.
  destruct (is_nl c); rewrite !line_bytes_cons; cbn [List.length]; lia.
Qed.

Lemma removelast_add_to_last ls s :
  removelast (add_to_last ls s) = removelast ls.
Proof.
  induction ls as [|l ls IH]; [reflexivity|].
  destruct ls as [|l' ls']; [reflexivity|].
  rewrite add_to_last_cons by discriminate.
  change (removelast (l :: l' :: ls')) with (l :: removelast (l' :: ls')).
  rewrite <- IH.
  pose proof (add_to_last_not_nil (l' :: ls') s) as Hne.
  destruct (add_to_last (l' :: ls') s); [now contradiction Hne|reflexivity].
Qed.

Lemma line_bytes_removelast_split_nl b :
  line_bytes (removelast (split_nl b)) <= Z.of_nat (List.length b).
Proof.
  pose proof (line_bytes_split_nl b) as H.
  pose proof (split_nl_not_nil b) as Hne.
  destruct (exists_last Hne) as (init & l & E).
  rewrite E in *. rewrite removelast_last.
  rewrite line_bytes_app, line_bytes_cons in H.
  change (line_bytes []) with 0 in H. lia.
Qed.

Lemma strip_length b : (List.length (strip b) <= List.length b)%nat.
Proof.
  unfold strip, drop_last. destruct (endswith_nl b) eqn:E; [|lia].
  apply endswith_nl_true in E. rewrite E at 2.
  rewrite length_app. simpl. unfold drop_last. lia.
Qed.

Lemma strip_length_ge b : (List.length b <= S (List.length (strip b)))%nat.
Proof.
  unfold strip, drop_last. destruct (endswith_nl b) eqn:E; [|lia].
  apply endswith_nl_true in E. rewrite E at 1.
  rewrite length_app. simpl. unfold drop_last. lia.
Qed.

(** After one iteration, the new segment and all the lines split off but
    the first to be produced fit in the chunk that was read. *)
Lemma loop_body_fits content buf_size fr fr' lines ev :
  1 <= buf_size ->
  loop_body content buf_size fr = (fr', lines, ev) ->
  exists seg, segment fr' = Some seg
              /\ (lines = []
                  \/ Z.of_nat (List.length seg) + line_bytes (tl lines)
                     <= buf_size - 1).
Proof.
  intros Hb E. unfold loop_body in E.
  set (chunk := read_at content _ _) in E.
  set (L := match segment fr with
            | Some s => add_to_last (split_nl (strip_eof_newline fr chunk)) s
            | None => split_nl (strip_eof_newline fr chunk)
            end) in E.
  injection E as <- <- _. simpl. exists (hd [] L). split; [reflexivity|].
  assert (Hchunk : Z.of_nat (List.length (strip_eof_newline fr chunk))
                   <= buf_size).
  { assert (H1 : (List.length (strip_eof_newline fr chunk)
                  <= List.length chunk)%nat).
    { unfold strip_eof_newline.
      destruct (_ && _) eqn:Ec; [|lia].
      apply andb_prop in Ec as [_ Ec]. apply endswith_nl_true in Ec.
      rewrite Ec at 2. rewrite length_app. simpl. lia. }
    assert (H2 : (List.length chunk
                  <= Z.to_nat (Z.min (remaining_size fr) buf_size))%nat).
    { unfold chunk, read_at. apply firstn_le_length. }
    lia. }
  assert (HL : line_bytes (removelast L) <= buf_size).
  { unfold L. destruct (segment fr).
    - rewrite removelast_add_to_last.
      pose proof (line_bytes_removelast_split_nl
                    (strip_eof_newline fr chunk)). lia.
    - pose proof (line_bytes_removelast_split_nl
                    (strip_eof_newline fr chunk)). lia. }
  destruct L as [|seg T]; [now left|]. simpl.
  destruct (rev T) as [|line rest] eqn:ET; [now left|]. right. simpl.
  assert (HT : T = rev rest ++ [line]).
  { apply (f_equal (@rev bytes)) in ET. now rewrite rev_involutive in ET. }
  rewrite HT in HL.
  change (seg :: rev rest ++ [line]) with ((seg :: rev rest) ++ [line]) in HL.
  rewrite removelast_last in HL.
  rewrite line_bytes_cons, line_bytes_rev in HL. lia.
Qed.

Lemma run_loop_fits fuel : forall content buf_size encoding fr pending io
                                  st item io',
  1 <= buf_size ->
  (pending = []
   \/ exists seg, segment fr = Some seg
                  /\ Z.of_nat (List.length seg) + line_bytes (tl pending)
                     <= buf_size - 1) ->
  run_loop fuel content buf_size encoding fr pending io
  = (st, Yield item, io') ->
  pending_fits buf_size st.
Proof.
  induction fuel as [|fuel IH];
    intros content buf_size encoding fr pending io st item io' Hb HP E;
    (destruct pending as [|line rest];
     [|rewrite run_loop_cons in E; unfold visit in E;
       destruct (decode_line encoding fr line); [|discriminate];
       injection E as <- _ _; simpl;
       destruct HP as [HP|HP]; [discriminate|exact HP]]);
    (destruct (Z_lt_le_dec 0 (remaining_size fr)) as [Hrem|Hrem];
     [|rewrite run_loop_done in E by assumption;
       unfold finish in E; destruct (segment fr) as [seg|];
       [destruct (decode_segment encoding seg)|];
       try discriminate; injection E as <- _ _; exact I]).
  - simpl in E.
    replace (remaining_size fr >? 0) with true in E
      by (symmetry; apply Z.gtb_lt; lia).
    discriminate.
  - rewrite run_loop_more in E by assumption.
    destruct (loop_body content buf_size fr) as [[fr' lines] ev] eqn:Eb.
    apply (IH _ _ _ _ _ _ _ _ _ Hb) in E; [assumption|].
    destruct (loop_body_fits _ _ _ _ _ _ Hb Eb) as (seg & Hs & [H|H]);
      [now left|right; now exists seg].
Qed.

Lemma pending_fits_tl capacity content fr pending :
  pending_fits capacity (GenSuspendedFor content fr pending) ->
  pending = []
  \/ exists seg, segment fr = Some seg
                 /\ Z.of_nat (List.length seg) + line_bytes (tl pending)
                    <= capacity - 1.
Proof.
  intros (seg & Hs & H). destruct pending as [|l rest]; [now left|].
  right. exists seg. split; [assumption|]. cbn [tl].
  rewrite line_bytes_cons in H. lia.
Qed.

Lemma next_fits g g' item io :
  gen_ok g -> pending_fits (buf_size g) (state g) ->
  next g = (g', Yield item, io) ->
  pending_fits (buf_size g') (state g').
Proof.
  intros Hok Hfit E. unfold next in E.
  destruct (resume g) as [[st o'] io'] eqn:Er.
  injection E as Hg' Ho Hio. subst g' o' io'. simpl. unfold resume in Er.
  destruct (state g) as [|content fr pending|content fr|] eqn:Eg;
    try discriminate.
  - unfold start in Er.
    destruct (buf_size g <? min_buf_size (encoding g)) eqn:Hv;
      [discriminate|].
    apply Z.ltb_ge in Hv.
    assert (Hb : 1 <= buf_size g)
      by (destruct (min_buf_size_cases (encoding g)); lia).
    destruct (fs (filename g)); try discriminate.
    destruct (_ =? 0); [discriminate|].
    apply run_loop_fits in Er; [assumption..|now left].
  - unfold gen_ok in Hok. rewrite Eg in Hok. destruct Hok as (Hb & _).
    apply run_loop_fits in Er; [assumption..|].
    now apply pending_fits_tl with (content := content).
Qed.

Lemma pulls_abandoned content n : forall g c items io,
  gen_ok g -> at_consumed content g c ->
  pending_fits (buf_size g) (state g) ->
  pulls n g = (items, Abandoned, io) ->
  exists g',
    gen_ok g'
    /\ at_consumed content g' (c + bytes_read (reads io))
    /\ pending_fits (buf_size g') (state g')
    /\ buf_size g' = buf_size g
    /\ exists ls, future g = ls ++ future g' /\ List.length ls = n.
Proof.
  induction n as [|n IH]; intros g c items io Hok Hat Hfit E.
  - injection E as <- <-. exists g.
    change (bytes_read (reads [])) with 0. rewrite Z.add_0_r.
    repeat (split; [assumption || reflexivity|]). now exists [].
  - rewrite pulls_S in E.
    destruct (next g) as [[g1 o] io1] eqn:En.
    destruct o as [item| |x|]; try discriminate.
    destruct (pulls n g1) as [[items1 e1] io2] eqn:Ep.
    injection E as <- -> <-.
    pose proof (next_ok _ _ _ _ Hok En)
      as (Hok1 & _ & _ & Hbuf & _ & l & Hl & _).
    pose proof (next_trace _ _ _ _ _ _ Hok Hat En)
      as (_ & _ & _ & _ & Hat1 & _).
    pose proof (next_fits _ _ _ _ Hok Hfit En) as Hfit1.
    destruct (IH _ _ _ _ Hok1 Hat1 Hfit1 Ep)
      as (g' & Hok' & Hat' & Hfit' & Hbuf' & ls & Hls & Hlen).
    exists g'. rewrite reads_app, bytes_read_app, Z.add_assoc.
    split; [assumption|]. split; [assumption|]. split; [assumption|].
    split; [congruence|].
    exists (l :: ls). rewrite Hl, Hls. split; [reflexivity|].
    simpl. now rewrite Hlen.
Qed.

(** A run that is abandoned after [n] items has read at most the bytes
    of the [n] lines it produced, their delimiters included, and one
    capacity more: the last lines of a file are obtained without reading
    the rest of it. *)
Theorem reads_bounded_by_the_lines_produced
        filename buf_size encoding g content n items io :
  last_lines filename buf_size encoding = inr g ->
  fs filename = Regular content ->
  min_buf_size encoding <= buf_size ->
  pulls n g = (items, Abandoned, io) ->
  bytes_read (reads io)
  <= line_bytes (firstn n (rev (logical_lines content))) + buf_size.
Proof.
  intros Hg Hfs Hb E. apply last_lines_created in Hg. subst g.
  assert (H1 : 1 <= buf_size)
    by (destruct (min_buf_size_cases encoding); lia).
  apply (pulls_abandoned content) with (c := 0) in E;
    [|exact I|unfold at_consumed; simpl; tauto|exact I].
  destruct E as (g' & Hok & Hat & Hfit & Hbuf & ls & Hls & Hlen).
  rewrite (future_created _ _ _ _ Hfs) in Hls.
  simpl in Hat, Hbuf.
  assert (Hfirst : firstn n (rev (logical_lines content)) = ls).
  { rewrite Hls, <- Hlen, firstn_app, firstn_all, Nat.sub_diag.
    simpl. apply app_nil_r. }
  rewrite Hfirst. clear Hfirst.
  pose proof (line_bytes_nonneg ls) as Hnn.
  unfold at_consumed in Hat. unfold gen_ok in Hok. unfold future in Hls.
  destruct (state g') as [|content' fr pending|content' fr|];
    [| | |contradiction].
  - destruct Hat as [_ Hc]. lia.
  - destruct Hat as [-> Hc]. destruct Hok as (_ & Hfr & _ & _).
    destruct Hfit as (seg & Hs & Hfit). rewrite Hbuf in Hfit.
    destruct Hfr as [Hsz Hne Hr Ho Hseg].
    assert (Hc0 : content <> []).
    { intros ->. unfold size_of in Hsz. simpl in Hsz. lia. }
    apply (f_equal line_bytes) in Hls.
    simpl in Hls. unfold todo in Hls. rewrite Hs in Hls.
    rewrite line_bytes_rev, !line_bytes_app, line_bytes_rev in Hls.
    unfold logical_lines in Hls.
    destruct content as [|b0 c0] eqn:Ec; [now contradiction Hc0|].
    rewrite <- Ec in *.
    rewrite !line_bytes_split_nl, length_app in Hls.
    assert (Hun : List.length (unread content fr)
                  = Z.to_nat (remaining_size fr)).
    { unfold unread. apply firstn_length_le.
      unfold size_of in Hsz. lia. }
    pose proof (strip_length_ge content) as Hst.
    unfold consumed, size_of in *. lia.
  - destruct Hat as [-> Hc]. destruct Hok as (_ & Hfr & _ & Hrem).
    destruct Hfr as [Hsz Hne Hr Ho Hseg].
    assert (Hc0 : content <> []).
    { intros ->. unfold size_of in Hsz. simpl in Hsz. lia. }
    apply (f_equal line_bytes) in Hls.
    simpl in Hls. rewrite app_nil_r, line_bytes_rev in Hls.
    unfold logical_lines in Hls.
    destruct content as [|b0 c0] eqn:Ec; [now contradiction Hc0|].
    rewrite <- Ec in *.
    rewrite line_bytes_split_nl in Hls.
    pose proof (strip_length_ge content) as Hst.
    unfold consumed, size_of in *. lia.
Qed.

(** No pull runs for ever: every pull of a generator obtained from
    [last_lines] by any sequence of pulls returns, with an item, with the
    end of the sequence or with an error. *)
Theorem every_pull_returns filename buf_size encoding g0 g g' o io :
  last_lines filename buf_size encoding = inr g0 ->
  reachable g0 g ->
  next g = (g', o, io) ->
  o <> Diverge.
Proof.
  intros Hg Hr En. apply last_lines_created in Hg. subst g0.
  destruct (reachable_created_ok _ _ _ _ Hr) as (Hok & _).
  exact (next_returns _ _ _ _ Hok En).
Qed.

End Generator.

(** ** The registered codecs and the newline *)

Lemma utf8_no_newline n : forall ns t,
  (List.length ns <= n)%nat ->
  Codec.utf8 ns = Some t -> ~ In 10%N ns -> ~ In 10%N t.
Proof.
  induction n as [|n IH]; intros ns t Hlen E Hno.
  - destruct ns; [|simpl in Hlen; lia]. injection E as <-. exact Hno.
  - destruct ns as [|b0 r0]; [injection E as <-; exact Hno|].
    cbn [Codec.utf8] in E.
    assert (Hb0 : b0 <> 10%N) by (intro; apply Hno; now left).
    assert (IH' : forall r u, (List.length r <= n)%nat ->
                              (forall x, In x r -> In x r0) ->
                              Codec.utf8 r = Some u -> ~ In 10%N u).
    { intros r u Hl Hsub Hu. apply (IH r u Hl Hu).
      intro H. apply Hno. right. now apply Hsub. }
    clear IH. simpl in Hlen.
    unfold Codec.between, Codec.cont in E.
    destruct (b0 <? 128)%N eqn:E0.
    { destruct (Codec.utf8 r0) as [u|] eqn:Eu; [|discriminate].
      injection E as <-. intros [H|H]; [congruence|].
      revert H. apply (IH' r0 u); [lia|auto|assumption]. }
    apply N.ltb_ge in E0.
    destruct ((194 <=? b0) && (b0 <=? 223))%N eqn:E1.
    { destruct r0 as [|b1 r1]; [discriminate|].
      destruct ((128 <=? b1) && (b1 <=? 191))%N eqn:C1; [|discriminate].
      destruct (Codec.utf8 r1) as [u|] eqn:Eu; [|discriminate].
      injection E as <-.
      apply andb_prop in E1 as [L1 _]. apply N.leb_le in L1.
      intros [H|H]; [lia|].
      revert H. apply (IH' r1 u); [simpl in Hlen; lia| |assumption].
      intros x Hx. now right. }
    destruct ((224 <=? b0) && (b0 <=? 239))%N eqn:E2.
    { destruct r0 as [|b1 [|b2 r2]]; [discriminate..|].
      match type of E with
      | (if ?c then _ else _) = _ => destruct c eqn:C1; [|discriminate]
      end.
      destruct (Codec.utf8 r2) as [u|] eqn:Eu; [|discriminate].
      injection E as <-.
      apply andb_prop in E2 as [L1 _]. apply N.leb_le in L1.
      apply andb_prop in C1 as [C1 _]. apply andb_prop in C1 as [C1 _].
      apply N.leb_le in C1.
      intros [H|H].
      - destruct (b0 =? 224)%N eqn:Q;
          [apply N.eqb_eq in Q|apply N.eqb_neq in Q]; lia.
      - revert H. apply (IH' r2 u); [simpl in Hlen; lia| |assumption].
        intros x Hx. now do 2 right. }
    destruct ((240 <=? b0) && (b0 <=? 244))%N eqn:E3; [|discriminate].
    destruct r0 as [|b1 [|b2 [|b3 r3]]]; [discriminate..|].
    match type of E with
    | (if ?c then _ else _) = _ => destruct c eqn:C1; [|discriminate]
    end.
    destruct (Codec.utf8 r3) as [u|] eqn:Eu; [|discriminate].
    injection E as <-.
    apply andb_prop in E3 as [L1 _]. apply N.leb_le in L1.
    apply andb_prop in C1 as [C1 _]. apply andb_prop in C1 as [C1 _].
    apply andb_prop in C1 as [C1 _]. apply N.leb_le in C1.
    intros [H|H].
    + destruct (b0 =? 240)%N eqn:Q;
        [apply N.eqb_eq in Q|apply N.eqb_neq in Q]; lia.
    + revert H. apply (IH' r3 u); [simpl in Hlen; lia| |assumption].
      intros x Hx. now do 3 right.
Qed.

Lemma no_nl_to_N (line : bytes) :
  no_nl line = true -> ~ In 10%N (map Byte.to_N line).
Proof.
  intros H Hin. apply in_map_iff in Hin as (b & Hb & Hin).
  unfold no_nl in H. rewrite forallb_forall in H.
  specialize (H b Hin). unfold is_nl in H.
  assert (E : Byte.of_N (Byte.to_N b) = Some b) by apply Byte.of_to_N.
  rewrite Hb in E. injection E as <-. discriminate.
Qed.

Lemma last_not_newline (t : text) : ~ In nl t -> last t 0%N <> nl.
Proof.
  intros H E. destruct t as [|a t]; [discriminate|].
  apply H. rewrite <- E. clear. revert a.
  induction t as [|b t IH]; intro a; [now left|].
  right. apply (IH b).
Qed.

(** Under UTF-8, ASCII and Latin-1 the newline character comes from the
    delimiter byte alone: no line of any file decodes to a text that
    holds one. *)
Lemma registered_codecs_keep_newlines_out encoding content :
  no_newline_from_decoding Codec.py_decode encoding content.
Proof.
  intros line t Hin Hd. apply last_not_newline.
  pose proof (logical_lines_no_nl content) as Hall.
  rewrite Forall_forall in Hall. apply Hall, no_nl_to_N in Hin.
  unfold Codec.py_decode in Hd.
  destruct (Codec.lookup encoding) as [c|]; [|discriminate].
  destruct (Codec.run c line) as [u|] eqn:Er; [|discriminate].
  injection Hd as <-. unfold Codec.run in Er. destruct c.
  - now apply (utf8_no_newline _ _ _ (le_n _) Er).
  - unfold Codec.ascii in Er.
    destruct (forallb _ _); [|discriminate]. now injection Er as <-.
  - now injection Er as <-.
Qed.

(** ** The properties on example files *)

Import Codec Ex.

Lemma reversed_items_are_the_logical_lines_witness :
  pulls py_decode (one_file three_lines) 4 (gen "app.log" 4 "utf-8")
  = ([[76; 51; 10]; [76; 50; 10]; [76; 49; 10]]%N, Completed,
     [EvOpen; EvSeekEnd; EvRead 5 4; EvRead 1 4; EvRead 0 1; EvClose])
  /\ Forall2 (fun item line => emitted_for py_decode "utf-8" line item)
             (rev [[76; 51; 10]; [76; 50; 10]; [76; 49; 10]]%N)
             (logical_lines three_lines).
Proof.
  assert (H : pulls py_decode (one_file three_lines) 4
                    (gen "app.log" 4 "utf-8")
              = ([[76; 51; 10]; [76; 50; 10]; [76; 49; 10]]%N, Completed,
                 [EvOpen; EvSeekEnd; EvRead 5 4; EvRead 1 4; EvRead 0 1;
                  EvClose]))
    by (vm_compute; reflexivity).
  split; [exact H|].
  exact (reversed_items_are_the_logical_lines
           py_decode (one_file three_lines) "app.log" 4 "utf-8" _ _ _ _ _
           eq_refl eq_refl H).
Defined.

Lemma trailing_newline_is_stripped_once_witness :
  exists io,
    pulls py_decode (one_file [NL]) 2 (gen "app.log" 4 "utf-8")
    = ([[nl]], Completed, io).
Proof.
  assert (Hb : min_buf_size "utf-8" <= 4) by (vm_compute; discriminate).
  destruct (trailing_newline_is_stripped_once
              py_decode (one_file [NL]) "app.log" 4 "utf-8"
              (gen "app.log" 4 "utf-8") [NL] eq_refl eq_refl Hb)
    as (_ & _ & _ & _ & H).
  apply H; reflexivity.
Defined.

Lemma backward_traversal_as_specified_witness :
  pulls py_decode (one_file three_lines) 4 (gen "app.log" 4 "utf-8")
  = ([[76; 51; 10]; [76; 50; 10]; [76; 49; 10]]%N, Completed,
     [EvOpen; EvSeekEnd; EvRead 5 4; EvRead 1 4; EvRead 0 1; EvClose])
  /\ reads_as_specified 9 4 0 [(5, 4); (1, 4); (0, 1)] = true
  /\ bytes_read [(5, 4); (1, 4); (0, 1)] = size_of three_lines
  /\ ForallOrdPairs disjoint_reads [(5, 4); (1, 4); (0, 1)].
Proof.
  assert (H : pulls py_decode (one_file three_lines) 4
                    (gen "app.log" 4 "utf-8")
              = ([[76; 51; 10]; [76; 50; 10]; [76; 49; 10]]%N, Completed,
                 [EvOpen; EvSeekEnd; EvRead 5 4; EvRead 1 4; EvRead 0 1;
                  EvClose]))
    by (vm_compute; reflexivity).
  split; [exact H|].
  assert (Hb : min_buf_size "utf-8" <= 4) by (vm_compute; discriminate).
  destruct (backward_traversal_as_specified
              py_decode (one_file three_lines) "app.log" 4 "utf-8"
              _ _ _ _ _ _ eq_refl eq_refl Hb H)
    as (H1 & H2 & H3 & _).
  split; [exact H1|]. split; [exact (H2 eq_refl)|exact H3].
Defined.


Lemma decode_failure_with_nothing_remaining_witness :
  pulls py_decode (one_file bad_last_line) 3 (gen "app.log" 8192 "utf-8")
  = ([], Failed UnicodeDecodeErr, [EvOpen; EvSeekEnd; EvRead 0 3; EvClose])
  /\ (size_of bad_last_line <= 8192 ->
      bytes_read [(0, 3)] = size_of bad_last_line)
  /\ exists ls l rest,
      rev (logical_lines bad_last_line) = ls ++ l :: rest
      /\ Forall2 (emitted_for py_decode "utf-8") ls []
      /\ ~ decodable py_decode "utf-8" l
      /\ (py_decode "utf-8" l = UnicodeDecodeError ->
          bytes_read [(0, 3)] = size_of bad_last_line ->
          (rest <> [] -> UnicodeDecodeErr = UnicodeDecodeErr)
          /\ (rest = [] -> UnicodeDecodeErr = BufferTooSmallException)).
Proof.
  assert (H : pulls py_decode (one_file bad_last_line) 3
                    (gen "app.log" 8192 "utf-8")
              = ([], Failed UnicodeDecodeErr,
                 [EvOpen; EvSeekEnd; EvRead 0 3; EvClose]))
    by (vm_compute; reflexivity).
  split; [exact H|].
  assert (Hb : min_buf_size "utf-8" <= 8192) by (vm_compute; discriminate).
  destruct (decode_failure_with_nothing_remaining
              py_decode (one_file bad_last_line) "app.log" 8192 "utf-8"
              _ _ _ _ _ _ eq_refl eq_refl Hb H)
    as (H1 & H2).
  split; [exact H2|exact H1].
Defined.

Lemma every_item_ends_with_the_appended_newline_witness :
  exists content line t,
    one_file crlf_lines "app.log"%string = Regular content
    /\ In line (logical_lines content)
    /\ no_nl line = true
    /\ py_decode "utf-8" line = Decoded t
    /\ [76; 50; 13; 10]%N = t ++ [nl]
    /\ last [76; 50; 13; 10]%N 0%N = nl
    /\ removelast [76; 50; 13; 10]%N = t
    /\ last (removelast [76; 50; 13; 10]%N) 0%N <> nl.
Proof.
  eassert (En : next py_decode (one_file crlf_lines)
                     (gen "app.log" 8192 "utf-8")
                = (_, Yield [76; 50; 13; 10]%N, _))
    by (vm_compute; reflexivity).
  destruct (every_item_ends_with_the_appended_newline
              py_decode (one_file crlf_lines) "app.log" 8192 "utf-8"
              _ _ _ _ _ eq_refl (reach_start _ _ _) En)
    as (content & line & t & Hfs & Hin & Hno & Hd & Hi & Hl & Hr & Hone).
  exists content, line, t.
  repeat (split; [assumption|]).
  apply Hone. injection Hfs as <-.
  intros l u Hl' Hd'. vm_compute in Hl'.
  destruct Hl' as [<-|[<-|[]]]; vm_compute in Hd';
    injection Hd' as <-; vm_compute; discriminate.
Defined.

Lemma pull_reads_until_a_line_is_ready_witness :
  pending_of (state (after py_decode (one_file three_lines) 1
                           (gen "app.log" 8192 "utf-8"))) <> []
  /\ reads (snd (next py_decode (one_file three_lines)
                      (after py_decode (one_file three_lines) 1
                             (gen "app.log" 8192 "utf-8")))) = []
  /\ Forall (fun r => no_nl (chunk_of long_line r) = true)
            (removelast
               (reads (snd (next py_decode (one_file long_line)
                                 (gen "app.log" 4 "utf-8"))))).
Proof.
  split; [vm_compute; discriminate|]. split.
  - destruct (next py_decode (one_file three_lines)
                   (after py_decode (one_file three_lines) 1
                          (gen "app.log" 8192 "utf-8")))
      as [[g' o] io] eqn:En.
    destruct (pull_reads_until_a_line_is_ready
                py_decode (one_file three_lines) "app.log" 8192 "utf-8"
                _ three_lines _ _ _ _ eq_refl eq_refl
                (reachable_after _ _ 1 _ _ (reach_start _ _ _)) En)
      as (H & _).
    apply H. vm_compute. discriminate.
  - destruct (next py_decode (one_file long_line)
                   (gen "app.log" 4 "utf-8"))
      as [[g' o] io] eqn:En.
    destruct (pull_reads_until_a_line_is_ready
                py_decode (one_file long_line) "app.log" 4 "utf-8"
                _ long_line _ _ _ _ eq_refl eq_refl
                (reach_start _ _ _) En)
      as (_ & _ & H & _).
    exact H.
Defined.

Lemma carried_segment_has_no_delimiter_witness :
  exists seg,
    segment (mkFrame 8 8 0 (Some long_line)) = Some seg
    /\ no_nl seg = true
    /\ split_nl seg = [seg]
    /\ emitted_for py_decode "utf-8" seg
                   [65; 65; 65; 65; 65; 65; 65; 65; 10]%N.
Proof.
  destruct (carried_segment_has_no_delimiter
              py_decode (one_file long_line) "app.log" 4 "utf-8"
              _ _ eq_refl (reach_start _ _ _))
    as (_ & _ & H).
  eapply H; vm_compute; reflexivity.
Defined.

Lemma capacity_is_checked_by_the_first_pull_witness :
  exists g,
    last_lines "app.log" 3 "utf-8" = inr g
    /\ state g = GenCreated
    /\ pulls py_decode (one_file three_lines) 0 g = ([], Abandoned, [])
    /\ next py_decode (one_file three_lines) g
       = (set_state g GenClosed, Raise ValueError, []).
Proof.
  apply capacity_is_checked_by_the_first_pull.
  vm_compute. reflexivity.
Defined.

Lemma minimum_capacity_by_encoding_name_witness :
  (min_buf_size "UTF-8" = 4
   /\ snd (fst (next py_decode (one_file three_lines)
                     (gen "app.log" 3 "UTF-8"))) = Raise ValueError)
  /\ (min_buf_size "utf-16" = 1
      /\ snd (fst (next py_decode (one_file three_lines)
                        (gen "app.log" 1 "utf-16"))) <> Raise ValueError).
Proof.
  split.
  - destruct (proj1 (minimum_capacity_by_encoding_name
                       py_decode (one_file three_lines) "app.log" 3 "UTF-8"
                       (gen "app.log" 3 "UTF-8") eq_refl) eq_refl)
      as (Hmin & Hlow & _).
    split; [exact Hmin|]. apply Hlow. reflexivity.
  - destruct (proj2 (minimum_capacity_by_encoding_name
                       py_decode (one_file three_lines) "app.log" 1 "utf-16"
                       (gen "app.log" 1 "utf-16") eq_refl) eq_refl)
      as (Hmin & _ & Hhigh).
    split; [exact Hmin|]. apply Hhigh. discriminate.
Defined.

(** ** Where the code departs from the design *)

(** C1 as stated fails: the binary file of the test suite, read with the
    default capacity (which spans the whole file, so that nothing is
    unread when its only line is decoded), ends the run with
    [BufferTooSmallException], not with the decoder's error. *)
Lemma first_line_failure_is_buffer_too_small :
  size_of binary <= 8192
  /\ py_decode "utf-8" binary = UnicodeDecodeError
  /\ pulls py_decode (one_file binary) 1 (gen "binary" 8192 "utf-8")
     = ([], Failed BufferTooSmallException,
        [EvOpen; EvSeekEnd; EvRead 0 4; EvClose])
  /\ bytes_read [(0, 4)] = size_of binary
  /\ Failed BufferTooSmallException <> Failed UnicodeDecodeErr.
Proof.
  split; [vm_compute; discriminate|].
  repeat (split; [vm_compute; reflexivity|]).
  discriminate.
Qed.

(** C2 as stated fails: with a capacity of 3 for UTF-8 the call returns
    a generator and raises nothing; without a pull there is no error. *)
Lemma construction_raises_nothing :
  3 < min_buf_size "utf-8"
  /\ last_lines "app.log" 3 "utf-8" = inr (gen "app.log" 3 "utf-8")
  /\ last_lines "app.log" 3 "utf-8" <> inl ValueError
  /\ pulls py_decode (one_file three_lines) 0 (gen "app.log" 3 "utf-8")
     = ([], Abandoned, []).
Proof.
  split; [vm_compute; reflexivity|]. split; [reflexivity|].
  split; [discriminate|reflexivity].
Qed.

(** C4 as stated fails: ["utf-16"] names a variable-width encoding, yet
    its minimum is 1 and a capacity of 1 is accepted for it. *)
Lemma variable_width_encoding_accepted_below_four :
  min_buf_size "utf-16" = 1
  /\ 1 < 4
  /\ snd (fst (next py_decode (one_file []) (gen "app.log" 1 "utf-16")))
     = StopIteration
  /\ snd (fst (next py_decode (one_file []) (gen "app.log" 1 "utf-16")))
     <> Raise ValueError.
Proof.
  split; [reflexivity|]. split; [reflexivity|].
  split; [vm_compute; reflexivity|vm_compute; discriminate].
Qed.

(** C8 as stated fails: under [cp037] the byte 0x25 stands for the newline
    character and is not the delimiter; the one line of the file
    [b"\xc1\x25"] decodes to ["A\n"] and the item is ["A\n\n"], which ends
    with two newlines. *)
Lemma item_ends_with_two_newlines :
  min_buf_size "cp037" <= 8192
  /\ no_nl More.ebcdic_line = true
  /\ Ebcdic.py_decode "cp037" More.ebcdic_line = Decoded [65; 10]%N
  /\ snd (fst (next Ebcdic.py_decode (one_file More.ebcdic_line)
                    (gen "app.log" 8192 "cp037")))
     = Yield [65; 10; 10]%N
  /\ last (removelast [65; 10; 10]%N) 0%N = nl.
Proof.
  split; [vm_compute; discriminate|].
  repeat split; vm_compute; reflexivity.
Qed.

(** C9 as stated fails: on a file of one line of 8 bytes read with a
    capacity of 4, the first pull reads two chunks and what is consumed
    grows by 8. *)
Lemma one_pull_reads_two_chunks :
  reads (snd (next py_decode (one_file long_line)
                   (gen "app.log" 4 "utf-8")))
  = [(4, 4); (0, 4)]
  /\ bytes_read (reads (snd (next py_decode (one_file long_line)
                                  (gen "app.log" 4 "utf-8")))) = 8
  /\ 4 < 8
  /\ snd (fst (next py_decode (one_file long_line)
                    (gen "app.log" 4 "utf-8")))
     = Yield [65; 65; 65; 65; 65; 65; 65; 65; 10]%N.
Proof.
  repeat split; vm_compute; reflexivity.
Qed.

(** ** The further properties on example files *)

Import More.

Lemma items_are_the_last_lines_witness :
  pulls py_decode (one_file three_lines) 2 (gen "app.log" 4 "utf-8")
  = ([[76; 51; 10]; [76; 50; 10]]%N, Abandoned,
     [EvOpen; EvSeekEnd; EvRead 5 4; EvRead 1 4])
  /\ [[76; 51; 10]; [76; 50; 10]]%N
     = map (item_of py_decode "utf-8")
           (firstn 2 (rev (logical_lines three_lines))).
Proof.
  assert (H : pulls py_decode (one_file three_lines) 2
                    (gen "app.log" 4 "utf-8")
              = ([[76; 51; 10]; [76; 50; 10]]%N, Abandoned,
                 [EvOpen; EvSeekEnd; EvRead 5 4; EvRead 1 4]))
    by (vm_compute; reflexivity).
  split; [exact H|].
  exact (proj1 (items_are_the_last_lines
                  py_decode (one_file three_lines) "app.log" 4 "utf-8"
                  _ _ _ _ _ _ eq_refl eq_refl H)).
Defined.

Lemma three_lines_decodable :
  Forall (decodable py_decode "utf-8") (logical_lines three_lines).
Proof.
  repeat constructor; eexists; vm_compute; reflexivity.
Defined.

Lemma complete_output_witness :
  exists io,
    pulls py_decode (one_file three_lines) 4 (gen "app.log" 4 "utf-8")
    = (map (item_of py_decode "utf-8") (rev (logical_lines three_lines)),
       Completed, io).
Proof.
  apply (complete_output py_decode (one_file three_lines)
                         "app.log" 4 "utf-8" _ three_lines 4
                         eq_refl eq_refl).
  - vm_compute. discriminate.
  - exact three_lines_decodable.
  - vm_compute. lia.
Defined.

Lemma no_failure_when_all_lines_decode_witness :
  Abandoned = Completed
  \/ (Abandoned = Abandoned
      /\ List.length [[76; 51; 10]; [76; 50; 10]]%N = 2%nat).
Proof.
  assert (H : pulls py_decode (one_file three_lines) 2
                    (gen "app.log" 4 "utf-8")
              = ([[76; 51; 10]; [76; 50; 10]]%N, Abandoned,
                 [EvOpen; EvSeekEnd; EvRead 5 4; EvRead 1 4]))
    by (vm_compute; reflexivity).
  assert (Hb : min_buf_size "utf-8" <= 4) by (vm_compute; discriminate).
  exact (no_failure_when_all_lines_decode
           py_decode (one_file three_lines) "app.log" 4 "utf-8"
           _ _ _ _ _ _ eq_refl eq_refl Hb three_lines_decodable H).
Defined.

Lemma no_completion_with_an_undecodable_line_witness :
  Failed BufferTooSmallException <> Completed
  /\ ((List.length (logical_lines bad_middle_line) <= 3)%nat ->
      exists x, Failed BufferTooSmallException = Failed x).
Proof.
  assert (H : pulls py_decode (one_file bad_middle_line) 3
                    (gen "app.log" 4 "utf-8")
              = ([[66; 10]]%N, Failed BufferTooSmallException,
                 [EvOpen; EvSeekEnd; EvRead 4 4; EvClose]))
    by (vm_compute; reflexivity).
  apply (no_completion_with_an_undecodable_line
           py_decode (one_file bad_middle_line) "app.log" 4 "utf-8"
           _ bad_middle_line [x80] _ _ _ _ eq_refl eq_refl) with (3 := H).
  - vm_compute. tauto.
  - left. vm_compute. reflexivity.
Defined.

Lemma items_independent_of_capacity_witness :
  fst (fst (pulls py_decode (one_file three_lines) 4
                  (gen "app.log" 4 "utf-8")))
  = fst (fst (pulls py_decode (one_file three_lines) 9
                    (gen "app.log" 8192 "utf-8"))).
Proof.
  destruct (pulls py_decode (one_file three_lines) 4
                  (gen "app.log" 4 "utf-8"))
    as [[items1 e1] io1] eqn:E1.
  destruct (pulls py_decode (one_file three_lines) 9
                  (gen "app.log" 8192 "utf-8"))
    as [[items2 e2] io2] eqn:E2.
  assert (He1 : e1 = Completed)
    by (apply (f_equal (fun r => snd (fst r))) in E1; vm_compute in E1;
        now symmetry).
  assert (He2 : e2 = Completed)
    by (apply (f_equal (fun r => snd (fst r))) in E2; vm_compute in E2;
        now symmetry).
  subst e1 e2.
  exact (items_independent_of_capacity
           py_decode (one_file three_lines) "app.log" "utf-8" three_lines
           4 8192 _ _ _ _ _ _ _ _ eq_refl eq_refl eq_refl E1 E2).
Defined.

Lemma trailing_newline_makes_no_difference_witness :
  fst (fst (pulls py_decode (two_files open_ended three_lines) 4
                  (gen "plain.log" 4 "utf-8")))
  = fst (fst (pulls py_decode (two_files open_ended three_lines) 4
                    (gen "app.log" 5 "utf-8"))).
Proof.
  destruct (pulls py_decode (two_files open_ended three_lines) 4
                  (gen "plain.log" 4 "utf-8"))
    as [[items1 e1] io1] eqn:E1.
  destruct (pulls py_decode (two_files open_ended three_lines) 4
                  (gen "app.log" 5 "utf-8"))
    as [[items2 e2] io2] eqn:E2.
  assert (He1 : e1 = Completed)
    by (apply (f_equal (fun r => snd (fst r))) in E1; vm_compute in E1;
        now symmetry).
  assert (He2 : e2 = Completed)
    by (apply (f_equal (fun r => snd (fst r))) in E2; vm_compute in E2;
        now symmetry).
  subst e1 e2.
  refine (trailing_newline_makes_no_difference
            py_decode (two_files open_ended three_lines)
            "plain.log" "app.log" "utf-8" open_ended
            4 5 _ _ _ _ _ _ _ _ eq_refl eq_refl eq_refl eq_refl
            _ eq_refl E1 E2).
  discriminate.
Defined.

Lemma no_items_iff_empty_file_witness :
  ([[76; 51; 10]; [76; 50; 10]; [76; 49; 10]]%N = [] <-> three_lines = [])
  /\ List.length [[76; 51; 10]; [76; 50; 10]; [76; 49; 10]]%N
     = List.length (logical_lines three_lines).
Proof.
  assert (H : pulls py_decode (one_file three_lines) 4
                    (gen "app.log" 4 "utf-8")
              = ([[76; 51; 10]; [76; 50; 10]; [76; 49; 10]]%N, Completed,
                 [EvOpen; EvSeekEnd; EvRead 5 4; EvRead 1 4; EvRead 0 1;
                  EvClose]))
    by (vm_compute; reflexivity).
  exact (no_items_iff_empty_file
           py_decode (one_file three_lines) "app.log" 4 "utf-8"
           _ _ _ _ _ eq_refl eq_refl H).
Defined.

Lemma file_opened_once_and_closed_at_the_end_witness :
  [EvOpen; EvSeekEnd; EvRead 5 4; EvRead 1 4; EvRead 0 1; EvClose]
  = [EvOpen; EvSeekEnd]
    ++ read_events
         (reads [EvOpen; EvSeekEnd; EvRead 5 4; EvRead 1 4; EvRead 0 1;
                 EvClose])
    ++ closed_by Completed.
Proof.
  assert (H : pulls py_decode (one_file three_lines) 4
                    (gen "app.log" 4 "utf-8")
              = ([[76; 51; 10]; [76; 50; 10]; [76; 49; 10]]%N, Completed,
                 [EvOpen; EvSeekEnd; EvRead 5 4; EvRead 1 4; EvRead 0 1;
                  EvClose]))
    by (vm_compute; reflexivity).
  assert (Hb : min_buf_size "utf-8" <= 4) by (vm_compute; discriminate).
  exact (file_opened_once_and_closed_at_the_end
           py_decode (one_file three_lines) "app.log" 4 "utf-8"
           _ _ _ _ _ _ eq_refl eq_refl Hb H).
Defined.

Lemma reads_bounded_by_the_lines_produced_witness :
  bytes_read (reads [EvOpen; EvSeekEnd; EvRead 5 4])
  <= line_bytes (firstn 1 (rev (logical_lines three_lines))) + 4.
Proof.
  assert (H : pulls py_decode (one_file three_lines) 1
                    (gen "app.log" 4 "utf-8")
              = ([[76; 51; 10]]%N, Abandoned,
                 [EvOpen; EvSeekEnd; EvRead 5 4]))
    by (vm_compute; reflexivity).
  assert (Hb : min_buf_size "utf-8" <= 4) by (vm_compute; discriminate).
  exact (reads_bounded_by_the_lines_produced
           py_decode (one_file three_lines) "app.log" 4 "utf-8"
           _ _ _ _ _ eq_refl eq_refl Hb H).
Defined.

Lemma every_pull_returns_witness :
  Yield [76; 51; 10]%N <> Diverge.
Proof.
  eassert (En : next py_decode (one_file three_lines)
                     (gen "app.log" 4 "utf-8")
                = (_, Yield [76; 51; 10]%N, _))
    by (vm_compute; reflexivity).
  exact (every_pull_returns
           py_decode (one_file three_lines) "app.log" 4 "utf-8"
           _ _ _ _ _ eq_refl (reach_start _ _ _) En).
Defined.

(** ** Facts about the reconciliation *)

Module ReconcileFacts.

Import Reconcile.

Section Facts.

Variable float : Type.
Variable float_eq : float -> float -> bool.

Lemma in_combine_seq (l : list (Transaction float)) : forall k i c,
  In (i, c) (combine (seq k (List.length l)) l)
  <-> (k <= i)%nat /\ nth_error l (i - k) = Some c.
Proof.
  induction l as [|x l IH]; intros k i c; simpl.
  - split; [contradiction|]. intros [_ H]. now destruct (i - k)%nat.
  - rewrite IH. split.
    + intros [[= <- <-]|[Hk Hn]].
      * split; [lia|]. now rewrite Nat.sub_diag.
      * split; [lia|]. replace (i - k)%nat with (S (i - S k)) by lia.
        exact Hn.
    + intros [Hk Hn]. destruct (Nat.eq_dec i k) as [->|Hne].
      * left. rewrite Nat.sub_diag in Hn. simpl in Hn. congruence.
      * right. split; [lia|].
        replace (i - k)%nat with (S (i - S k)) in Hn by lia. exact Hn.
Qed.

Lemma in_positions (l : list (Transaction float)) i c :
  In (i, c) (positions l) <-> nth_error l i = Some c.
Proof.
  unfold positions. rewrite in_combine_seq, Nat.sub_0_r.
  split; [tauto|]. intro H. split; [lia|assumption].
Qed.

Lemma combine_seq_sorted (l : list (Transaction float)) : forall k,
  StronglySorted (fun a b => (fst a < fst b)%nat)
                 (combine (seq k (List.length l)) l).
Proof.
  induction l as [|x l IH]; intro k; simpl; constructor.
  - apply IH.
  - apply Forall_forall. intros [i c] Hin.
    apply in_combine_seq in Hin. simpl. lia.
Qed.

Lemma sorted_filter {A} (R : A -> A -> Prop) (f : A -> bool) l :
  StronglySorted R l -> StronglySorted R (filter f l).
Proof.
  induction 1 as [|a l Hs IH Hall]; simpl; [constructor|].
  destruct (f a); [|assumption].
  constructor; [assumption|].
  apply Forall_forall. intros x Hx. apply filter_In in Hx as [Hx _].
  rewrite Forall_forall in Hall. now apply Hall.
Qed.

Lemma sorted_middle {A} (R : A -> A -> Prop) pre m post :
  StronglySorted R (pre ++ m :: post) ->
  Forall (fun x => R x m) pre /\ Forall (R m) post.
Proof.
  induction pre as [|a pre IH]; simpl; intro H.
  - apply StronglySorted_inv in H as [_ H]. split; [constructor|assumption].
  - apply StronglySorted_inv in H as [Hs Hall].
    destruct (IH Hs) as [Hpre Hpost]. split; [|assumption].
    constructor; [|assumption].
    rewrite Forall_forall in Hall. apply Hall.
    apply in_or_app. right. now left.
Qed.

(** [min] returns the first of the objects with the least date. *)
Lemma min_by_date_first (rest : list (nat * Transaction float)) :
  forall best,
  exists pre post,
    best :: rest = pre ++ min_by_date best rest :: post
    /\ Forall (fun x => date (snd (min_by_date best rest)) < date (snd x))
              pre
    /\ Forall (fun x => date (snd (min_by_date best rest)) <= date (snd x))
              post.
Proof.
  induction rest as [|c rest IH]; intro best; simpl.
  - exists [], []. repeat split; constructor.
  - destruct (date (snd c) <? date (snd best)) eqn:E.
    + apply Z.ltb_lt in E.
      destruct (IH c) as (pre & post & Hd & Hpre & Hpost).
      set (m := min_by_date c rest) in *.
      exists (best :: pre), post.
      split; [simpl; now rewrite Hd|]. split; [|assumption].
      constructor; [|assumption].
      assert (Hc : date (snd m) <= date (snd c)).
      { assert (Hin : In c (pre ++ m :: post))
          by (rewrite <- Hd; now left).
        apply in_app_or in Hin as [Hin|[Heq|Hin]].
        - rewrite Forall_forall in Hpre. specialize (Hpre c Hin). lia.
        - rewrite Heq. lia.
        - rewrite Forall_forall in Hpost. now apply Hpost. }
      lia.
    + apply Z.ltb_ge in E.
      destruct (IH best) as (pre & post & Hd & Hpre & Hpost).
      remember (min_by_date best rest) as m eqn:Em. clear Em.
      destruct pre as [|b pre'].
      * simpl in Hd. injection Hd as Hm Hr.
        exists [], (c :: post).
        split; [simpl; congruence|]. split; [constructor|].
        constructor; [|assumption]. now rewrite <- Hm.
      * simpl in Hd. injection Hd as Hb Hr.
        exists (best :: c :: pre'), post.
        split; [simpl; congruence|]. split; [|assumption].
        inversion Hpre as [|? ? Hbm Hpre']; subst.
        constructor; [assumption|]. constructor; [lia|assumption].
Qed.

Lemma filter_nil_iff (P : Transaction float -> bool) candidates :
  filter (fun c => P (snd c)) (positions candidates) = []
  <-> forall c, In c candidates -> P c = false.
Proof.
  split.
  - intros H c Hin. apply In_nth_error in Hin as (i & Hi).
    apply in_positions in Hi.
    destruct (P c) eqn:E; [|reflexivity].
    assert (Hf : In (i, c) (filter (fun c => P (snd c))
                                   (positions candidates)))
      by (apply filter_In; now split).
    rewrite H in Hf. contradiction.
  - intro H.
    destruct (filter _ _) as [|[i c] r] eqn:E; [reflexivity|].
    assert (Hf : In (i, c) (filter (fun c => P (snd c))
                                   (positions candidates)))
      by (rewrite E; now left).
    apply filter_In in Hf as [Hin HP]. simpl in HP.
    apply in_positions, nth_error_In in Hin.
    rewrite (H c Hin) in HP. discriminate.
Qed.

(** The object picked among the candidates that pass a filter: it is one
    of them, none of them has an earlier date, and none with the same
    date comes before it in the list. *)
Lemma pick_spec (P : Transaction float -> bool) candidates x r :
  filter (fun c => P (snd c)) (positions candidates) = x :: r ->
  exists c,
    nth_error candidates (fst (min_by_date x r)) = Some c
    /\ P c = true
    /\ forall j c', nth_error candidates j = Some c' -> P c' = true ->
                    date c <= date c'
                    /\ (date c = date c' ->
                        (fst (min_by_date x r) <= j)%nat).
Proof.
  intro E.
  destruct (min_by_date_first r x) as (pre & post & Hd & Hpre & Hpost).
  destruct (min_by_date x r) as [i c] eqn:Em. simpl in *.
  assert (Hm : In (i, c) (filter (fun c => P (snd c))
                                 (positions candidates))).
  { rewrite E, Hd. apply in_or_app. right. now left. }
  apply filter_In in Hm as [Hin HP]. simpl in HP.
  apply in_positions in Hin.
  exists c. split; [assumption|]. split; [assumption|].
  intros j c' Hj HP'.
  assert (Hf : In (j, c') (filter (fun c => P (snd c))
                                  (positions candidates)))
    by (apply filter_In; split; [now apply in_positions|assumption]).
  assert (Hs : StronglySorted (fun a b => (fst a < fst b)%nat)
                              (pre ++ (i, c) :: post)).
  { rewrite <- Hd, <- E. apply sorted_filter.
    unfold positions. apply combine_seq_sorted. }
  apply sorted_middle in Hs as [_ Hafter].
  rewrite E, Hd in Hf.
  apply in_app_or in Hf as [Hf|[Hf|Hf]].
  - rewrite Forall_forall in Hpre. specialize (Hpre _ Hf). simpl in Hpre.
    lia.
  - injection Hf as <- <-. lia.
  - rewrite Forall_forall in Hpost, Hafter.
    specialize (Hpost _ Hf). specialize (Hafter _ Hf). simpl in *. lia.
Qed.

Lemma exact_is_close (txn c : Transaction float) :
  is_exact_match float_eq txn c = true ->
  is_close_match float_eq txn c = true.
Proof.
  unfold is_exact_match, is_close_match, is_date_close.
  rewrite !andb_true_iff. intros [[Hn Hd] Hm]. repeat split; try assumption.
  apply Z.eqb_eq in Hd. apply Z.leb_le. lia.
Qed.

Lemma close_match_parts (txn c : Transaction float) :
  is_close_match float_eq txn c = true ->
  status c = None /\ matches float_eq txn c = true
  /\ is_date_close txn c = true.
Proof.
  unfold is_close_match. rewrite !andb_true_iff. intros [[Hn Hd] Hm].
  repeat split; try assumption. now destruct (status c).
Qed.

(** What [find_match] returns is a candidate that is not yet matched,
    agrees with the transaction on department, amount and name, and is
    dated at most one day apart. *)
Theorem find_match_sound txn candidates i :
  find_match float_eq txn candidates = Some i ->
  exists c,
    nth_error candidates i = Some c
    /\ status c = None
    /\ matches float_eq txn c = true
    /\ is_date_close txn c = true.
Proof.
  unfold find_match.
  destruct (filter (fun c => is_exact_match float_eq txn (snd c)) _)
    as [|x r] eqn:Ee.
  - destruct (filter (fun c => is_close_match float_eq txn (snd c)) _)
      as [|y q] eqn:Ec; [discriminate|].
    intros [= <-].
    destruct (pick_spec _ _ _ _ Ec) as (c & Hn & HP & _).
    exists c. split; [assumption|]. now apply close_match_parts.
  - intros [= <-].
    destruct (pick_spec _ _ _ _ Ee) as (c & Hn & HP & _).
    exists c. split; [assumption|].
    now apply close_match_parts, exact_is_close.
Qed.

(** [find_match] finds nothing exactly when no candidate can be matched
    with the transaction. *)
Theorem find_match_none_iff txn candidates :
  find_match float_eq txn candidates = None
  <-> forall c, In c candidates -> ~ eligible float_eq txn c.
Proof.
  unfold find_match, eligible.
  destruct (filter (fun c => is_exact_match float_eq txn (snd c)) _)
    as [|x r] eqn:Ee.
  - destruct (filter (fun c => is_close_match float_eq txn (snd c)) _)
      as [|y q] eqn:Ec.
    + split; [|reflexivity]. intros _ c Hin.
      rewrite filter_nil_iff in Ec. rewrite (Ec c Hin). discriminate.
    + split; [discriminate|]. intro H. exfalso.
      destruct (pick_spec _ _ _ _ Ec) as (c & Hn & HP & _).
      apply (H c); [now apply nth_error_In in Hn|assumption].
  - split; [discriminate|]. intro H. exfalso.
    destruct (pick_spec _ _ _ _ Ee) as (c & Hn & HP & _).
    apply (H c); [now apply nth_error_In in Hn|now apply exact_is_close].
Qed.

(** Which candidate [find_match] chooses: one dated the same day as the
    transaction if there is any, and then the first of them in the list;
    otherwise one with the earliest date among those a day apart, and the
    first of them in the list. *)
Theorem find_match_choice txn candidates i c :
  find_match float_eq txn candidates = Some i ->
  nth_error candidates i = Some c ->
  (forall j c', nth_error candidates j = Some c' ->
                is_exact_match float_eq txn c' = true ->
                date c = date txn /\ (i <= j)%nat)
  /\ ((forall c', In c' candidates ->
                  is_exact_match float_eq txn c' = false) ->
      forall j c', nth_error candidates j = Some c' ->
                   is_close_match float_eq txn c' = true ->
                   date c <= date c' /\ (date c = date c' -> (i <= j)%nat)).
Proof.
  unfold find_match.
  destruct (filter (fun c => is_exact_match float_eq txn (snd c)) _)
    as [|x r] eqn:Ee.
  - destruct (filter (fun c => is_close_match float_eq txn (snd c)) _)
      as [|y q] eqn:Ec; [discriminate|].
    intros [= <-] Hc.
    destruct (pick_spec _ _ _ _ Ec) as (c0 & Hn & HP & Hmin).
    assert (c0 = c) by congruence. subst c0.
    rewrite filter_nil_iff in Ee. split.
    + intros j c' Hj He. apply nth_error_In in Hj.
      rewrite (Ee c' Hj) in He. discriminate.
    + intros _ j c' Hj Hcl. now apply Hmin.
  - intros [= <-] Hc.
    destruct (pick_spec _ _ _ _ Ee) as (c0 & Hn & HP & Hmin).
    assert (c0 = c) by congruence. subst c0.
    assert (Hdate : forall c', is_exact_match float_eq txn c' = true ->
                               date c' = date txn).
    { intros c' H. unfold is_exact_match in H.
      rewrite !andb_true_iff in H. destruct H as [[_ H] _].
      apply Z.eqb_eq in H. now symmetry. }
    split.
    + intros j c' Hj He. split; [now apply Hdate|].
      apply (Hmin j c' Hj He). rewrite (Hdate c HP), (Hdate c' He).
      reflexivity.
    + intros Hno. exfalso. apply nth_error_In in Hn.
      rewrite (Hno c Hn) in HP. discriminate.
Qed.

Lemma marked_refl (a : Transaction float) : marked a a.
Proof. unfold marked. tauto. Qed.

Lemma marked_set_status (a : Transaction float) :
  marked a (set_status "FOUND" a).
Proof. unfold marked. simpl. tauto. Qed.

Lemma marked_trans (a b c : Transaction float) :
  marked a b -> marked b c -> marked a c.
Proof.
  unfold marked.
  intros (? & ? & ? & ? & ? & Hab) (? & ? & ? & ? & ? & Hbc).
  repeat (split; [congruence|]).
  destruct Hbc as [Hbc|Hbc]; [rewrite Hbc; exact Hab|now right].
Qed.

Lemma set_status_at_marked i (l : list (Transaction float)) :
  Forall2 marked l (set_status_at i "FOUND" l).
Proof.
  revert i. induction l as [|a l IH]; intros [|i]; simpl;
    constructor; try apply marked_refl; try apply marked_set_status;
    try apply IH.
  clear. induction l; constructor; [apply marked_refl|assumption].
Qed.

Lemma Forall2_marked_trans (l1 l2 l3 : list (Transaction float)) :
  Forall2 marked l1 l2 -> Forall2 marked l2 l3 -> Forall2 marked l1 l3.
Proof.
  intro H. revert l3. induction H as [|a b l1 l2 Hab _ IH]; intros l3 H3;
    inversion H3; subst; constructor;
    [now apply marked_trans with b|now apply IH].
Qed.

Lemma Forall2_marked_refl (l : list (Transaction float)) :
  Forall2 marked l l.
Proof. induction l; constructor; [apply marked_refl|assumption]. Qed.

(** The first loop changes nothing but statuses, and only to found. *)
Lemma match_all_marked (t1 : list (Transaction float)) : forall t2,
  Forall2 marked t1 (fst (match_all float_eq t1 t2))
  /\ Forall2 marked t2 (snd (match_all float_eq t1 t2)).
Proof.
  induction t1 as [|txn t1 IH]; intro t2; simpl.
  - split; [constructor|apply Forall2_marked_refl].
  - destruct (find_match float_eq txn t2) as [i|].
    + specialize (IH (set_status_at i "FOUND" t2)).
      destruct (match_all float_eq t1 _) as [r1 r2]. simpl in *.
      destruct IH as [H1 H2]. split.
      * constructor; [apply marked_set_status|assumption].
      * eapply Forall2_marked_trans; [apply set_status_at_marked|exact H2].
    + specialize (IH t2).
      destruct (match_all float_eq t1 _) as [r1 r2]. simpl in *.
      destruct IH as [H1 H2]. split; [|assumption].
      constructor; [apply marked_refl|assumption].
Qed.

Lemma found_cons (a : Transaction float) l :
  found (a :: l)
  = ((match status a with
      | Some s => if String.eqb s "FOUND" then 1 else 0
      | None => 0
      end) + found l)%nat.
Proof.
  unfold found. simpl. destruct (status a) as [s|]; [|reflexivity].
  now destruct (String.eqb s "FOUND").
Qed.

Lemma found_set_status_at i (l : list (Transaction float)) c :
  nth_error l i = Some c -> status c = None ->
  found (set_status_at i "FOUND" l) = S (found l).
Proof.
  revert i. induction l as [|a l IH]; intros [|i] Hn Hs; simpl in Hn;
    try discriminate.
  - injection Hn as ->. simpl. rewrite !found_cons. simpl. now rewrite Hs.
  - simpl. rewrite !found_cons, (IH i Hn Hs). lia.
Qed.

Lemma found_tag_missing (l : list (Transaction float)) :
  found (map tag_missing l) = found l.
Proof.
  induction l as [|a l IH]; [reflexivity|].
  simpl. rewrite !found_cons, IH. unfold tag_missing.
  destruct (status a) eqn:E; simpl; rewrite ?E; reflexivity.
Qed.

Lemma found_fresh (l : list (Transaction float)) :
  Forall fresh l -> found l = 0%nat.
Proof.
  induction 1 as [|a l Ha _ IH]; [reflexivity|].
  rewrite found_cons, IH. unfold fresh in Ha. now rewrite Ha.
Qed.

Lemma match_all_found (t1 : list (Transaction float)) : forall t2,
  Forall fresh t1 ->
  (found (fst (match_all float_eq t1 t2)) + found t2)%nat
  = found (snd (match_all float_eq t1 t2)).
Proof.
  induction t1 as [|txn t1 IH]; intros t2 Hf; [reflexivity|].
  inversion Hf as [|? ? Htxn Hf']; subst. simpl.
  destruct (find_match float_eq txn t2) as [i|] eqn:E.
  - destruct (find_match_sound _ _ _ E) as (c & Hn & Hs & _).
    specialize (IH (set_status_at i "FOUND" t2) Hf').
    rewrite (found_set_status_at _ _ _ Hn Hs) in IH.
    destruct (match_all float_eq t1 _) as [r1 r2]. cbn [fst snd] in *.
    rewrite found_cons. cbn [status set_status String.eqb]. simpl. lia.
  - specialize (IH t2 Hf').
    destruct (match_all float_eq t1 _) as [r1 r2]. cbn [fst snd] in *.
    rewrite found_cons. unfold fresh in Htxn. now rewrite Htxn.
Qed.

(** The matching is one to one: when no transaction has been matched
    before, as many transactions end up found in the first list as in the
    second. *)
Theorem reconciled_one_to_one (t1 t2 : list (Transaction float)) :
  Forall fresh t1 -> Forall fresh t2 ->
  found (fst (reconciled float_eq t1 t2))
  = found (snd (reconciled float_eq t1 t2)).
Proof.
  intros H1 H2. unfold reconciled.
  pose proof (match_all_found t1 t2 H1) as H.
  destruct (match_all float_eq t1 t2) as [r1 r2]. cbn [fst snd] in *.
  rewrite !found_tag_missing. rewrite (found_fresh _ H2) in H. lia.
Qed.

Lemma rows_out_tagged (l : list (Transaction float)) :
  rows_out (map tag_missing l)
  = Some (map (fun txn => String.concat "," (original_row txn
                                             ++ [final_status txn])) l).
Proof.
  induction l as [|a l IH]; [reflexivity|].
  cbn [map rows_out]. rewrite IH.
  unfold row_out, tag_missing, final_status.
  destruct (status a) eqn:E; cbn [status set_status original_row];
    rewrite ?E; reflexivity.
Qed.

Lemma marked_row_of (a b : Transaction float) :
  marked a b ->
  row_of a (String.concat "," (original_row b ++ [final_status b])).
Proof.
  intros (_ & _ & _ & _ & Hrow & Hst). exists (final_status b).
  rewrite Hrow. split; [reflexivity|].
  unfold fresh, final_status. intro Hf. rewrite Hf in Hst.
  destruct Hst as [-> | ->]; [now right|now left].
Qed.

(** [reconcile] always returns: it raises no exception, and gives for
    every transaction of either list, in the order of the list, its
    original fields followed by its status, joined by commas; the status
    of a transaction that had none is found or missing. *)
Theorem reconcile_returns (t1 t2 : list (Transaction float)) :
  exists out1 out2,
    reconcile float_eq t1 t2 = Some (out1, out2)
    /\ Forall2 row_of t1 out1
    /\ Forall2 row_of t2 out2.
Proof.
  unfold reconcile, reconciled.
  destruct (match_all_marked t1 t2) as [H1 H2].
  destruct (match_all float_eq t1 t2) as [r1 r2]. simpl in *.
  rewrite !rows_out_tagged. eexists _, _. split; [reflexivity|].
  assert (H : forall l r : list (Transaction float),
              Forall2 marked l r ->
              Forall2 row_of l
                (map (fun txn => String.concat "," (original_row txn
                                                    ++ [final_status txn]))
                     r)).
  { induction 1; cbn [map]; constructor;
      [now apply marked_row_of|assumption]. }
  split; now apply H.
Qed.

Lemma Forall2_nth_error {A B} (R : A -> B -> Prop) l l' :
  Forall2 R l l' ->
  forall j b, nth_error l' j = Some b ->
              exists a, nth_error l j = Some a /\ R a b.
Proof.
  induction 1 as [|a b l l' Hab _ IH]; intros [|j] b' Hj;
    try discriminate.
  - injection Hj as <-. now exists a.
  - now apply IH.
Qed.

Lemma marked_same_match (txn c c' : Transaction float) :
  marked c c' ->
  matches float_eq txn c' = matches float_eq txn c
  /\ is_date_close txn c' = is_date_close txn c.
Proof.
  intros (Hd & Hp & Ha & Hn & _). unfold matches, is_date_close.
  now rewrite Hd, Hp, Ha, Hn.
Qed.

Lemma match_all_partner (t1 : list (Transaction float)) :
  forall t2 k txn r,
    nth_error t1 k = Some txn -> fresh txn ->
    nth_error (fst (match_all float_eq t1 t2)) k = Some r ->
    (status r = None \/ status r = Some "FOUND"%string)
    /\ (status r = Some "FOUND"%string ->
        exists c, In c t2 /\ matches float_eq txn c = true
                  /\ is_date_close txn c = true).
Proof.
  induction t1 as [|txn1 t1 IH]; intros t2 [|k] txn r Hk Hf Hr;
    try discriminate; cbn [match_all] in Hr.
  - injection Hk as ->.
    destruct (find_match float_eq txn t2) as [i|] eqn:E.
    + destruct (find_match_sound _ _ _ E) as (c & Hn & _ & Hm & Hd).
      destruct (match_all float_eq t1 _) as [r1 r2].
      injection Hr as <-. split; [now right|]. intros _.
      exists c. split; [now apply nth_error_In in Hn|tauto].
    + destruct (match_all float_eq t1 _) as [r1 r2].
      injection Hr as <-. unfold fresh in Hf. rewrite Hf.
      split; [now left|discriminate].
  - simpl in Hk.
    destruct (find_match float_eq txn1 t2) as [i|].
    + specialize (IH (set_status_at i "FOUND" t2) k txn r Hk Hf).
      destruct (match_all float_eq t1 _) as [r1 r2].
      destruct (IH Hr) as [Hst Hp]. split; [assumption|].
      intro H. destruct (Hp H) as (c' & Hin & Hm & Hd).
      apply In_nth_error in Hin as (j & Hj).
      destruct (Forall2_nth_error _ _ _ (set_status_at_marked i t2) j c' Hj)
        as (c & Hc & Hmk).
      destruct (marked_same_match txn _ _ Hmk) as [E1 E2].
      exists c. split; [now apply nth_error_In in Hc|].
      now rewrite <- E1, <- E2.
    + specialize (IH t2 k txn r Hk Hf).
      destruct (match_all float_eq t1 _) as [r1 r2]. now apply IH.
Qed.

(** A transaction of the first list that had no status ends up found or
    missing; it is found only if the second list holds a transaction with
    the same department, amount and name dated at most one day apart, so
    that it is missing whenever the second list holds none. *)
Theorem found_has_partner (t1 t2 : list (Transaction float)) k txn r :
  nth_error t1 k = Some txn -> fresh txn ->
  nth_error (fst (reconciled float_eq t1 t2)) k = Some r ->
  (status r = Some "FOUND"%string \/ status r = Some "MISSING"%string)
  /\ (status r = Some "FOUND"%string ->
      exists c, In c t2 /\ matches float_eq txn c = true
                /\ is_date_close txn c = true)
  /\ ((forall c, In c t2 ->
                 matches float_eq txn c && is_date_close txn c = false) ->
      status r = Some "MISSING"%string).
Proof.
  intros Hk Hf Hr. unfold reconciled in Hr.
  pose proof (match_all_partner t1 t2 k txn) as Hp.
  destruct (match_all float_eq t1 t2) as [r1 r2]. cbn [fst] in *.
  rewrite nth_error_map in Hr.
  destruct (nth_error r1 k) as [r0|]; [|discriminate].
  injection Hr as <-.
  destruct (Hp r0 Hk Hf eq_refl) as [Hst Hpartner].
  assert (Hfound : status (tag_missing r0) = Some "FOUND"%string ->
                   status r0 = Some "FOUND"%string).
  { unfold tag_missing. destruct (status r0) eqn:E; [now rewrite E|].
    discriminate. }
  assert (Hcases : status (tag_missing r0) = Some "FOUND"%string
                   \/ status (tag_missing r0) = Some "MISSING"%string).
  { unfold tag_missing. destruct Hst as [E|E]; rewrite E;
      [now right|left; now rewrite E]. }
  split; [assumption|]. split; [now intro H; apply Hpartner, Hfound|].
  intro Hno. destruct Hcases as [H|H]; [|assumption].
  destruct (Hpartner (Hfound H)) as (c & Hin & Hm & Hd).
  specialize (Hno c Hin). rewrite Hm, Hd in Hno. discriminate.
Qed.

Variable strptime : string -> option Z.
Variable to_float : string -> option float.

Lemma parse_row_fresh row txn :
  parse_row strptime to_float row = Some txn ->
  fresh txn /\ original_row txn = row.
Proof.
  unfold parse_row.
  destruct row as [|d [|dept [|amt [|what rest]]]]; try discriminate.
  destruct (strptime d); [|discriminate].
  destruct (to_float amt); [|discriminate].
  intros [= <-]. split; reflexivity.
Qed.

Lemma parse_rows_spec rows :
  match parse_rows strptime to_float rows with
  | Some txns =>
      Forall2 (fun row txn => fresh txn /\ original_row txn = row) rows txns
  | None => exists row, In row rows
                        /\ parse_row strptime to_float row = None
  end.
Proof.
  induction rows as [|row rows IH]; simpl; [constructor|].
  destruct (parse_row strptime to_float row) as [txn|] eqn:E.
  - destruct (parse_rows strptime to_float rows) as [txns|].
    + constructor; [now apply parse_row_fresh|assumption].
    + destruct IH as (r & Hin & Hr). exists r. split; [now right|assumption].
  - exists row. split; [now left|assumption].
Qed.

Lemma row_of_line_of (rows : list (list string))
      (txns : list (Transaction float)) out :
  Forall2 (fun row txn => fresh txn /\ original_row txn = row) rows txns ->
  Forall2 row_of txns out ->
  Forall2 line_of rows out.
Proof.
  intro H. revert out.
  induction H as [|row txn rows txns [Hf Hrow] _ IH]; intros out Hout;
    inversion Hout as [|? line ? out' (s & Hline & Hs) Hrest]; subst;
    constructor; [|now apply IH].
  exists s. split; [reflexivity || assumption|now apply Hs].
Qed.

Lemma parse_rows_none rows :
  parse_rows strptime to_float rows = None
  <-> exists row, In row rows /\ parse_row strptime to_float row = None.
Proof.
  induction rows as [|r rows IH]; simpl.
  - split; [discriminate|]. now intros (row & [] & _).
  - destruct (parse_row strptime to_float r) as [txn|] eqn:E.
    + destruct (parse_rows strptime to_float rows) as [txns|].
      * split; [discriminate|]. intros (row & [->|Hin] & Hn);
          [congruence|].
        assert (H : Some txns = None) by (apply IH; now exists row).
        discriminate.
      * split; [|reflexivity]. intros _.
        destruct (proj1 IH eq_refl) as (row & Hin & Hn).
        exists row. split; [now right|assumption].
    + split; [|reflexivity]. intros _. exists r. split; [now left|assumption].
Qed.

(** [reconcile_accounts] returns exactly when every row of both lists can
    be parsed; it then gives, for every row of either list and in the
    same order, the row with its status, found or missing, appended,
    joined by commas.  With a row that cannot be parsed it raises. *)
Theorem reconcile_accounts_lines rows1 rows2 :
  ((forall row, In row (rows1 ++ rows2) ->
                parse_row strptime to_float row <> None) ->
   exists out1 out2,
     reconcile_accounts float_eq strptime to_float rows1 rows2
     = Some (out1, out2)
     /\ Forall2 line_of rows1 out1
     /\ Forall2 line_of rows2 out2)
  /\ ((exists row, In row (rows1 ++ rows2)
                   /\ parse_row strptime to_float row = None) ->
      reconcile_accounts float_eq strptime to_float rows1 rows2 = None).
Proof.
  unfold reconcile_accounts.
  pose proof (parse_rows_spec rows1) as P1.
  pose proof (parse_rows_spec rows2) as P2.
  pose proof (parse_rows_none rows1) as N1.
  pose proof (parse_rows_none rows2) as N2.
  destruct (parse_rows strptime to_float rows1) as [t1|].
  - destruct (parse_rows strptime to_float rows2) as [t2|].
    + split.
      * intros _.
        destruct (reconcile_returns t1 t2) as (out1 & out2 & E & H1 & H2).
        exists out1, out2. split; [assumption|].
        split; eapply row_of_line_of; eassumption.
      * intros (row & Hin & Hnone). exfalso.
        apply in_app_or in Hin as [Hin|Hin].
        -- assert (H : Some t1 = None) by (apply N1; now exists row).
           discriminate.
        -- assert (H : Some t2 = None) by (apply N2; now exists row).
           discriminate.
    + split; [|reflexivity]. intro Hall. exfalso.
      destruct (proj1 N2 eq_refl) as (row & Hin & Hn).
      apply (Hall row); [apply in_or_app; now right|assumption].
  - split; [|reflexivity]. intro Hall. exfalso.
    destruct (proj1 N1 eq_refl) as (row & Hin & Hn).
    apply (Hall row); [apply in_or_app; now left|assumption].
Qed.

End Facts.

Import ReconcileEx.

Lemma find_match_sound_witness :
  exists c,
    nth_error [sale_jan3; sale_jan2; salary_jan5] 1 = Some c
    /\ status c = None
    /\ matches Z.eqb sale_jan1 c = true
    /\ is_date_close sale_jan1 c = true.
Proof.
  apply (find_match_sound Z Z.eqb sale_jan1
                          [sale_jan3; sale_jan2; salary_jan5] 1).
  reflexivity.
Defined.

Lemma find_match_none_iff_witness :
  find_match Z.eqb sale_jan1 [sale_jan3; salary_jan5] = None.
Proof.
  apply (proj2 (find_match_none_iff Z Z.eqb sale_jan1
                                    [sale_jan3; salary_jan5])).
  intros c [<-|[<-|[]]]; vm_compute; discriminate.
Defined.

Lemma find_match_choice_witness :
  (forall j c', nth_error [sale_jan3; sale_jan2; sale_jan1; sale_jan2] j
                = Some c' ->
                is_exact_match Z.eqb sale_jan2 c' = true ->
                date sale_jan2 = date sale_jan2 /\ (1 <= j)%nat)
  /\ ((forall c', In c' [sale_jan3; sale_jan2; sale_jan1; sale_jan2] ->
                  is_exact_match Z.eqb sale_jan2 c' = false) ->
      forall j c', nth_error [sale_jan3; sale_jan2; sale_jan1; sale_jan2] j
                   = Some c' ->
                   is_close_match Z.eqb sale_jan2 c' = true ->
                   date sale_jan2 <= date c'
                   /\ (date sale_jan2 = date c' -> (1 <= j)%nat)).
Proof.
  apply (find_match_choice Z Z.eqb sale_jan2
                           [sale_jan3; sale_jan2; sale_jan1; sale_jan2]
                           1 sale_jan2); reflexivity.
Defined.

Lemma reconciled_one_to_one_witness :
  found (fst (reconciled Z.eqb [sale_jan1; salary_jan5; sale_jan1]
                         [sale_jan3; sale_jan2; sale_jan2]))
  = found (snd (reconciled Z.eqb [sale_jan1; salary_jan5; sale_jan1]
                           [sale_jan3; sale_jan2; sale_jan2])).
Proof.
  apply (reconciled_one_to_one Z Z.eqb); repeat constructor.
Defined.

Lemma found_has_partner_witness :
  (status (set_status "FOUND" sale_jan1) = Some "FOUND"%string
   \/ status (set_status "FOUND" sale_jan1) = Some "MISSING"%string)
  /\ (status (set_status "FOUND" sale_jan1) = Some "FOUND"%string ->
      exists c, In c [sale_jan3; sale_jan2]
                /\ matches Z.eqb sale_jan1 c = true
                /\ is_date_close sale_jan1 c = true)
  /\ ((forall c, In c [sale_jan3; sale_jan2] ->
                 matches Z.eqb sale_jan1 c && is_date_close sale_jan1 c
                 = false) ->
      status (set_status "FOUND" sale_jan1) = Some "MISSING"%string).
Proof.
  apply (found_has_partner Z Z.eqb [sale_jan1; salary_jan5]
                           [sale_jan3; sale_jan2] 0 sale_jan1);
    reflexivity.
Defined.

Lemma reconcile_accounts_lines_witness :
  exists out1 out2,
    reconcile_accounts
      Z.eqb day_of whole
      [["2023-01-01"; "Sales"; "100.00"; "Product A"]%string]
      [["2023-01-03"; "Sales"; "100.00"; "Product A"]%string;
       ["2023-01-02"; "Sales"; "100.00"; "Product A"]%string]
    = Some (out1, out2)
    /\ Forall2 line_of
         [["2023-01-01"; "Sales"; "100.00"; "Product A"]%string] out1
    /\ Forall2 line_of
         [["2023-01-03"; "Sales"; "100.00"; "Product A"]%string;
          ["2023-01-02"; "Sales"; "100.00"; "Product A"]%string] out2.
Proof.
  apply (proj1 (reconcile_accounts_lines Z Z.eqb day_of whole _ _)).
  intros row Hin. simpl in Hin.
  destruct Hin as [<-|[<-|[<-|[]]]]; vm_compute; discriminate.
Defined.

End ReconcileFacts.
